(** * In-memory LRU cache with per-entry TTL (thanos pkg/cache/inmemory.go)

    A shallow embedding of [InMemoryCache] and of its methods [onEvict],
    [get], [set], [ensureFits], [reset], [Store] and [Fetch], followed by the
    properties of its byte accounting, recency order, expiry and copying.

    Conventions of the embedding:
    - [uint64] fields are [Z] values, every addition and subtraction on them
      is reduced modulo [2^64] where the source computes it;
    - a [[]byte] is a slice header pointing into a heap of byte arrays, so
      that sharing between the cache and its callers is visible;
    - every call of [time.Now()] is an input of the operation that makes it;
    - the mutex makes every method body atomic, so a run of the cache is a
      sequence of method calls. *)

From stdpp Require Import base option list strings gmap.
From Stdlib Require Import ZArith Lia.
From Stdlib.Strings Require Import Byte.

#[local] Open Scope Z_scope.

(** ** Machine integers *)

Definition uint64_modulus : Z := 2 ^ 64.

(** Wrap-around of [uint64] arithmetic. *)
Definition uint64 (z : Z) : Z := z mod uint64_modulus.

(** ** Byte slices and the heap they point into *)

Module mem.

(** The heap holds the backing arrays; an address is an index in it and
    [make] allocates at the end. *)
Abbreviation heap := (list (list byte)).

(** A value of type [[]byte]: [nil], or a window of [len] bytes starting
    at offset [off] of the backing array [arr]. *)
Inductive bytes :=
| nil
| Slice (arr : nat) (off : nat) (len : nat).

(** [len(b)]; a Go [int] that is never negative, so [uint64(len(b))] is the
    same number. *)
Definition len (b : bytes) : Z :=
  match b with
  | nil => 0
  | Slice _ _ n => Z.of_nat n
  end.

Definition nlen (b : bytes) : nat :=
  match b with
  | nil => 0%nat
  | Slice _ _ n => n
  end.

(** The slice lies within its backing array. *)
Definition valid (h : heap) (b : bytes) : Prop :=
  match b with
  | nil => True
  | Slice a o n =>
      match h !! a with
      | Some A => (o + n <= length A)%nat
      | None => False
      end
  end.

(** The bytes seen through a slice. *)
Definition read (h : heap) (b : bytes) : list byte :=
  match b with
  | nil => []
  | Slice a o n => take n (drop o (default [] (h !! a)))
  end.

(** Overwrite the first [length bs] bytes seen through a slice. *)
Definition write (h : heap) (b : bytes) (bs : list byte) : heap :=
  match b with
  | nil => h
  | Slice a o n =>
      match h !! a with
      | Some A => <[a := take o A ++ bs ++ drop (o + length bs) A]> h
      | None => h
      end
  end.

(** [make([]byte, n)]: a fresh zeroed array. *)
Definition make (n : nat) (h : heap) : bytes * heap :=
  (Slice (length h) 0 n, h ++ [replicate n x00]).

(** [copy(dst, src)]: the first [min(len(dst), len(src))] bytes. *)
Definition copy (dst src : bytes) (h : heap) : heap :=
  write h dst (take (Nat.min (nlen dst) (nlen src)) (read h src)).

(** [b[i] = x] by whoever holds the slice [b]; out of range it panics. *)
Definition store (h : heap) (b : bytes) (i : nat) (x : byte) : option heap :=
  match b with
  | nil => None
  | Slice a o n =>
      if decide (i < n)%nat then
        match h !! a with
        | Some A => Some (<[a := <[(o + i)%nat := x]> A]> h)
        | None => None
        end
      else None
  end.

End mem.

(** ** Time

    A [time.Time] is its reading in nanoseconds, a [time.Duration] a number
    of nanoseconds; readings and durations are taken far from the ends of
    the 64-bit range, so that [Add] is exact. *)

Definition Time := Z.
Definition Duration := Z.

Definition time_Add (t : Time) (d : Duration) : Time := t + d.

(** [t.After(u)]: strictly later. *)
Definition time_After (t u : Time) : bool := u <? t.

(** ** The recency list *)

Module simplelru.
Section LRU.
Context {V : Type}.

(** Modelled from the spec: the package [simplelru] of
    hashicorp/golang-lru that [InMemoryCache.lru] comes from is not part
    of the sources. Following the spec's data model it is a
    recency-ordered mapping from key to entry, most recently touched at
    the front and least recently touched at the back, with no bound on
    the number of entries. Removing an entry hands it to the eviction
    callback; the methods below return what they removed and the cache
    applies [onEvict] to it. *)
Definition LRU := list (string * V).

(** Modelled from the spec: the entry a key maps to ([items[key]]). *)
Fixpoint find (key : string) (l : LRU) : option V :=
  match l with
  | [] => None
  | (k, v) :: l' => if String.eqb k key then Some v else find key l'
  end.

(** Modelled from the spec: the list without the entry of a key, the
    others in their order. *)
Fixpoint remove (key : string) (l : LRU) : LRU :=
  match l with
  | [] => []
  | (k, v) :: l' => if String.eqb k key then l' else (k, v) :: remove key l'
  end.

(** Modelled from the spec: [Get] looks the key up and, on a hit, marks
    the entry as most recently used. *)
Definition Get (key : string) (l : LRU) : option V * LRU :=
  match find key l with
  | Some v => (Some v, (key, v) :: remove key l)
  | None => (None, l)
  end.

(** Modelled from the spec: [Add] inserts as the most recently used
    entry (replacing the value of a key that is already there). *)
Definition Add (key : string) (v : V) (l : LRU) : LRU :=
  (key, v) :: remove key l.

(** Modelled from the spec: [Remove] deletes the entry of a key. *)
Definition Remove (key : string) (l : LRU) : option (string * V) * LRU :=
  match find key l with
  | Some v => (Some (key, v), remove key l)
  | None => (None, l)
  end.

(** Modelled from the spec: [RemoveOldest] deletes the least recently
    used entry, and reports when there is none. *)
Definition RemoveOldest (l : LRU) : option (string * V) * LRU :=
  match last l with
  | Some e => (Some e, removelast l)
  | None => (None, l)
  end.

(** Modelled from the spec: [Purge] deletes every entry, each one going
    through the eviction callback. *)
Definition Purge (l : LRU) : list (string * V) * LRU := (l, []).

(** The keys held, most recently used first. *)
Definition keys (l : LRU) : list string := l.*1.

End LRU.
#[global] Arguments LRU : clear implicits.
End simplelru.

(** ** The cache *)

Record cacheDataWithTTLWrapper := {
  data : mem.bytes;
  expiryTime : Time
}.

(** What the logger is handed. *)
Inductive LogEvent :=
| LogCreated (maxItemSize maxSize : Z)
| LogItemTooBig (maxItemSize maxSize cur itemSize : Z)
| LogResetting (maxItemSize maxSize cur itemSize : Z).

(** The counters and gauges of the cache. A counter is the number of its
    [Inc()] calls; a gauge is kept as the exact integer it stands for. *)
Record Metrics := {
  evicted : Z;
  requests : Z;
  hits : Z;
  hitsExpired : Z;
  added : Z;
  current : Z;
  currentSize : Z;
  totalCurrentSize : Z;
  overflow : Z
}.

Record InMemoryCache := {
  logger : list LogEvent;
  maxSizeBytes : Z;
  maxItemSizeBytes : Z;
  name : string;
  curSize : Z;
  lru : simplelru.LRU cacheDataWithTTLWrapper;
  metrics : Metrics
}.

Record InMemoryCacheConfig := {
  MaxSize : Z;
  MaxItemSize : Z
}.

(** Field updates. *)

Definition with_lru (l : simplelru.LRU cacheDataWithTTLWrapper)
    (c : InMemoryCache) : InMemoryCache :=
  {| logger := logger c; maxSizeBytes := maxSizeBytes c;
     maxItemSizeBytes := maxItemSizeBytes c; name := name c;
     curSize := curSize c; lru := l; metrics := metrics c |}.

Definition with_curSize (n : Z) (c : InMemoryCache) : InMemoryCache :=
  {| logger := logger c; maxSizeBytes := maxSizeBytes c;
     maxItemSizeBytes := maxItemSizeBytes c; name := name c;
     curSize := n; lru := lru c; metrics := metrics c |}.

Definition with_metrics (m : Metrics) (c : InMemoryCache) : InMemoryCache :=
  {| logger := logger c; maxSizeBytes := maxSizeBytes c;
     maxItemSizeBytes := maxItemSizeBytes c; name := name c;
     curSize := curSize c; lru := lru c; metrics := m |}.

Definition log (e : LogEvent) (c : InMemoryCache) : InMemoryCache :=
  {| logger := e :: logger c; maxSizeBytes := maxSizeBytes c;
     maxItemSizeBytes := maxItemSizeBytes c; name := name c;
     curSize := curSize c; lru := lru c; metrics := metrics c |}.

Definition zero_metrics : Metrics :=
  {| evicted := 0; requests := 0; hits := 0; hitsExpired := 0; added := 0;
     current := 0; currentSize := 0; totalCurrentSize := 0; overflow := 0 |}.

(** [NewInMemoryCacheWithConfig]: refuses an item limit above the total
    limit ([None] is the error), otherwise an empty cache. *)
Definition NewInMemoryCacheWithConfig (name : string) (logger : list LogEvent)
    (config : InMemoryCacheConfig) : option InMemoryCache :=
  if MaxItemSize config >? MaxSize config then None
  else
    Some {| logger := LogCreated (MaxItemSize config) (MaxSize config) :: logger;
            maxSizeBytes := MaxSize config;
            maxItemSizeBytes := MaxItemSize config;
            name := name;
            curSize := 0;
            lru := [];
            metrics := zero_metrics |}.

(** [onEvict]: the callback the recency list runs on every entry it drops. *)
Definition onEvict (key : string) (val : cacheDataWithTTLWrapper)
    (c : InMemoryCache) : InMemoryCache :=
  let keySize := Z.of_nat (String.length key) in
  let entrySize := mem.len (data val) in
  let m := metrics c in
  let c := with_metrics
    {| evicted := evicted m + 1; requests := requests m; hits := hits m;
       hitsExpired := hitsExpired m; added := added m;
       current := current m - 1;
       currentSize := currentSize m - entrySize;
       totalCurrentSize := totalCurrentSize m - (keySize + entrySize);
       overflow := overflow m |} c in
  with_curSize (uint64 (curSize c - entrySize)) c.

(** [c.lru.Remove(key)], callback included. *)
Definition lru_Remove (key : string) (c : InMemoryCache) : InMemoryCache :=
  match simplelru.Remove key (lru c) with
  | (Some (k, v), l) => onEvict k v (with_lru l c)
  | (None, _) => c
  end.

(** [c.lru.RemoveOldest()], callback included; the flag is its [ok]. *)
Definition lru_RemoveOldest (c : InMemoryCache) : InMemoryCache * bool :=
  match simplelru.RemoveOldest (lru c) with
  | (Some (k, v), l) => (onEvict k v (with_lru l c), true)
  | (None, _) => (c, false)
  end.

(** [c.lru.Purge()], callback included. *)
Definition lru_Purge (c : InMemoryCache) : InMemoryCache :=
  let '(dropped, l) := simplelru.Purge (lru c) in
  fold_left (fun c e => onEvict e.1 e.2 c) dropped (with_lru l c).

Definition inc_requests (c : InMemoryCache) : InMemoryCache :=
  let m := metrics c in
  with_metrics
    {| evicted := evicted m; requests := requests m + 1; hits := hits m;
       hitsExpired := hitsExpired m; added := added m; current := current m;
       currentSize := currentSize m; totalCurrentSize := totalCurrentSize m;
       overflow := overflow m |} c.

Definition inc_hits (c : InMemoryCache) : InMemoryCache :=
  let m := metrics c in
  with_metrics
    {| evicted := evicted m; requests := requests m; hits := hits m + 1;
       hitsExpired := hitsExpired m; added := added m; current := current m;
       currentSize := currentSize m; totalCurrentSize := totalCurrentSize m;
       overflow := overflow m |} c.

Definition inc_hitsExpired (c : InMemoryCache) : InMemoryCache :=
  let m := metrics c in
  with_metrics
    {| evicted := evicted m; requests := requests m; hits := hits m;
       hitsExpired := hitsExpired m + 1; added := added m;
       current := current m; currentSize := currentSize m;
       totalCurrentSize := totalCurrentSize m; overflow := overflow m |} c.

Definition inc_overflow (c : InMemoryCache) : InMemoryCache :=
  let m := metrics c in
  with_metrics
    {| evicted := evicted m; requests := requests m; hits := hits m;
       hitsExpired := hitsExpired m; added := added m; current := current m;
       currentSize := currentSize m; totalCurrentSize := totalCurrentSize m;
       overflow := overflow m + 1 |} c.

(** [get]; [now] is the reading of [time.Now()] on a hit. *)
Definition get (now : Time) (key : string) (c : InMemoryCache)
    : (mem.bytes * bool) * InMemoryCache :=
  let c := inc_requests c in
  match simplelru.Get key (lru c) with
  | (None, _) => ((mem.nil, false), c)
  | (Some v, l) =>
      let c := with_lru l c in
      if time_After now (expiryTime v) then
        let c := inc_hitsExpired c in
        let c := lru_Remove key c in
        ((mem.nil, false), c)
      else
        let c := inc_hits c in
        ((data v, true), c)
  end.

(** [reset]. *)
Definition reset (c : InMemoryCache) : InMemoryCache :=
  let c := lru_Purge c in
  let m := metrics c in
  let c := with_metrics
    {| evicted := evicted m; requests := requests m; hits := hits m;
       hitsExpired := hitsExpired m; added := added m; current := 0;
       currentSize := 0; totalCurrentSize := 0; overflow := overflow m |} c in
  with_curSize 0 c.

(** The [for] loop of [ensureFits]. Each unit of fuel pays for one turn of
    the loop; [None] says the fuel ran out before the loop condition became
    false. *)
Fixpoint ensureFits_loop (fuel : nat) (size : Z) (c : InMemoryCache)
    : option InMemoryCache :=
  if uint64 (curSize c + size) >? maxSizeBytes c then
    match fuel with
    | O => None
    | S fuel' =>
        match lru_RemoveOldest c with
        | (c', true) => ensureFits_loop fuel' size c'
        | (c', false) =>
            let c' := log (LogResetting (maxItemSizeBytes c') (maxSizeBytes c')
                             (curSize c') size) c' in
            ensureFits_loop fuel' size (reset c')
        end
    end
  else Some c.

(** [ensureFits]. The loop drops one entry per turn until the list is
    empty, and one more turn resets; a loop that has not stopped by then
    never does (lemma [ensureFits_loop_diverges]), which is the [None]. *)
Definition ensureFits (size : Z) (c : InMemoryCache)
    : option (bool * InMemoryCache) :=
  if size >? maxItemSizeBytes c then
    Some (false, log (LogItemTooBig (maxItemSizeBytes c) (maxSizeBytes c)
                        (curSize c) size) c)
  else
    c' ← ensureFits_loop (S (S (length (lru c)))) size c;
    Some (true, c').

(** [set]; [now] is the reading of [time.Now()] when the entry is built.
    [None]: the call does not return. *)
Definition set (now : Time) (key : string) (val : mem.bytes) (ttl : Duration)
    (w : mem.heap * InMemoryCache) : option (mem.heap * InMemoryCache) :=
  let '(h, c) := w in
  let size := mem.len val in
  let keySize := Z.of_nat (String.length key) in
  match simplelru.Get key (lru c) with
  | (Some _, l) => Some (h, with_lru l c)
  | (None, _) =>
      r ← ensureFits size c;
      match r with
      | (false, c) => Some (h, inc_overflow c)
      | (true, c) =>
          let '(v, h) := mem.make (mem.nlen val) h in
          let h := mem.copy v val h in
          let e := {| data := v; expiryTime := time_Add now ttl |} in
          let c := with_lru (simplelru.Add key e (lru c)) c in
          let m := metrics c in
          let c := with_metrics
            {| evicted := evicted m; requests := requests m; hits := hits m;
               hitsExpired := hitsExpired m; added := added m + 1;
               current := current m + 1;
               currentSize := currentSize m + size;
               totalCurrentSize := totalCurrentSize m + (keySize + size);
               overflow := overflow m |} c in
          Some (h, with_curSize (uint64 (curSize c + size)) c)
      end
  end.

(** [Store]. [data] lists the pairs of the map in the order the [range]
    loop visits them, each with the clock reading its [set] takes. *)
Fixpoint Store (data : list (Time * (string * mem.bytes))) (ttl : Duration)
    (w : mem.heap * InMemoryCache) : option (mem.heap * InMemoryCache) :=
  match data with
  | [] => Some w
  | (now, (key, val)) :: data' =>
      w' ← set now key val ttl w;
      Store data' ttl w'
  end.

(** The loop of [Fetch] over the remaining keys. *)
Fixpoint Fetch_loop (keys : list (Time * string))
    (results : gmap string mem.bytes) (c : InMemoryCache)
    : gmap string mem.bytes * InMemoryCache :=
  match keys with
  | [] => (results, c)
  | (now, key) :: keys' =>
      let '((b, ok), c') := get now key c in
      Fetch_loop keys' (if ok then <[key := b]> results else results) c'
  end.

(** [Fetch]; every key comes with the clock reading its [get] takes. *)
Definition Fetch (keys : list (Time * string)) (c : InMemoryCache)
    : gmap string mem.bytes * InMemoryCache :=
  Fetch_loop keys ∅ c.

(** ** Runs of the cache *)

(** One call of a method of the cache. *)
Inductive op :=
| OpGet (now : Time) (key : string)
| OpSet (now : Time) (key : string) (val : mem.bytes) (ttl : Duration)
| OpStore (data : list (Time * (string * mem.bytes))) (ttl : Duration)
| OpFetch (keys : list (Time * string))
| OpReset.

Definition step (o : op) (w : mem.heap * InMemoryCache)
    : option (mem.heap * InMemoryCache) :=
  match o with
  | OpGet now key => Some (w.1, (get now key w.2).2)
  | OpSet now key val ttl => set now key val ttl w
  | OpStore data ttl => Store data ttl w
  | OpFetch keys => Some (w.1, (Fetch keys w.2).2)
  | OpReset => Some (w.1, reset w.2)
  end.

Fixpoint run (ops : list op) (w : mem.heap * InMemoryCache)
    : option (mem.heap * InMemoryCache) :=
  match ops with
  | [] => Some w
  | o :: ops' => w' ← step o w; run ops' w'
  end.

(** ** What the claims speak about *)

(** [len(val.data)] of an entry of the recency list. *)
Definition entry_size (e : string * cacheDataWithTTLWrapper) : Z :=
  mem.len (data e.2).

(** The sum of [len(data)] over the entries held. *)
Definition stored_bytes (l : simplelru.LRU cacheDataWithTTLWrapper) : Z :=
  foldr (fun e acc => entry_size e + acc) 0 l.

(** The limits as the constructor and the type [uint64] leave them. *)
Record limits_ok (c : InMemoryCache) : Prop := {
  lim_item_nonneg : 0 <= maxItemSizeBytes c;
  lim_item_le : maxItemSizeBytes c <= maxSizeBytes c;
  lim_range : maxSizeBytes c < uint64_modulus
}.

(** The byte accounting of the spec's data model. *)
Record accounted (c : InMemoryCache) : Prop := {
  acc_sum : curSize c = stored_bytes (lru c);
  acc_max : curSize c <= maxSizeBytes c;
  acc_item : Forall (fun e => entry_size e <= maxItemSizeBytes c) (lru c);
  acc_keys : NoDup (simplelru.keys (lru c))
}.

(** ** Auxiliary notions of the statements *)

(** The fields no method assigns. *)
Definition same_limits (c c' : InMemoryCache) : Prop :=
  maxSizeBytes c' = maxSizeBytes c
  ∧ maxItemSizeBytes c' = maxItemSizeBytes c
  ∧ name c' = name c.

(** The entry [set] builds when the heap is [h]: a slice over the array
    it allocates, expiring [ttl] after [now]. *)
Definition new_entry (now : Time) (val : mem.bytes) (ttl : Duration)
    (h : mem.heap) : cacheDataWithTTLWrapper :=
  {| data := mem.Slice (length h) 0 (mem.nlen val);
     expiryTime := time_Add now ttl |}.

(** The sum of both limits is below [2^64]: then [curSize+size] in
    [ensureFits] and [set] cannot wrap around. *)
Definition no_wrap (c : InMemoryCache) : Prop :=
  maxSizeBytes c + maxItemSizeBytes c < uint64_modulus.

(** The number of turns of the loop that take the reset branch (the list
    has nothing left to drop and the item still does not fit). *)
Fixpoint ensureFits_resets (fuel : nat) (size : Z) (c : InMemoryCache) : nat :=
  if uint64 (curSize c + size) >? maxSizeBytes c then
    match fuel with
    | O => O
    | S fuel' =>
        match lru_RemoveOldest c with
        | (c', true) => ensureFits_resets fuel' size c'
        | (c', false) =>
            let c' := log (LogResetting (maxItemSizeBytes c') (maxSizeBytes c')
                             (curSize c') size) c' in
            S (ensureFits_resets fuel' size (reset c'))
        end
    end
  else O.

(** The keys of the pairs handed to [Store]. *)
Definition data_keys (data : list (Time * (string * mem.bytes))) : list string :=
  data.*2.*1.

(** The total length of the values handed to [Store]. *)
Definition data_bytes (data : list (Time * (string * mem.bytes))) : Z :=
  foldr (λ d acc, mem.len d.2.2 + acc) 0 data.

(** ** The remaining methods and what the further properties speak about *)

(** [DefaultInMemoryCacheConfig]: 250 MiB in all, 125 MiB per item. *)
Definition DefaultInMemoryCacheConfig : InMemoryCacheConfig :=
  {| MaxSize := 250 * 1024 * 1024; MaxItemSize := 125 * 1024 * 1024 |}.

(** [Name]. *)
Definition Name (c : InMemoryCache) : string := name c.

(** The sum of [len(key)] over the entries held. *)
Definition key_bytes (l : simplelru.LRU cacheDataWithTTLWrapper) : Z :=
  foldr (λ e acc, Z.of_nat (String.length e.1) + acc) 0 l.

(** The state [set] leaves when it stores: [c] is the cache as
    [ensureFits] returned it and [h] the heap before the call. *)
Definition after_add (now : Time) (key : string) (val : mem.bytes)
    (ttl : Duration) (h : mem.heap) (c : InMemoryCache) : InMemoryCache :=
  let size := mem.len val in
  let keySize := Z.of_nat (String.length key) in
  let c := with_lru (simplelru.Add key (new_entry now val ttl h) (lru c)) c in
  let m := metrics c in
  let c := with_metrics
    {| evicted := evicted m; requests := requests m; hits := hits m;
       hitsExpired := hitsExpired m; added := added m + 1;
       current := current m + 1;
       currentSize := currentSize m + size;
       totalCurrentSize := totalCurrentSize m + (keySize + size);
       overflow := overflow m |} c in
  with_curSize (uint64 (curSize c + size)) c.

(** The heap [set] leaves when it stores. *)
Definition heap_after_add (val : mem.bytes) (h : mem.heap) : mem.heap :=
  mem.copy (mem.Slice (length h) 0 (mem.nlen val)) val
    (h ++ [replicate (mem.nlen val) x00]).

(** The gauges and counters agree with what the cache holds, no key is held
    twice and no value is above the item limit. *)
Record tallied (c : InMemoryCache) : Prop := {
  tal_current : current (metrics c) = Z.of_nat (length (lru c));
  tal_size : currentSize (metrics c) = stored_bytes (lru c);
  tal_total : totalCurrentSize (metrics c)
              = stored_bytes (lru c) + key_bytes (lru c);
  tal_added : added (metrics c) - evicted (metrics c)
              = Z.of_nat (length (lru c));
  tal_hits : hits (metrics c) + hitsExpired (metrics c) <= requests (metrics c);
  tal_keys : NoDup (simplelru.keys (lru c));
  tal_item : Forall (λ e, entry_size e <= maxItemSizeBytes c) (lru c)
}.

(** A cache whose [curSize] has drifted: nothing is held, yet four bytes
    are counted. *)
Definition demo_drifted : InMemoryCache :=
  {| logger := [LogCreated 3 4]; maxSizeBytes := 4; maxItemSizeBytes := 3;
     name := "demo"; curSize := 4; lru := []; metrics := zero_metrics |}.

(** Limits that [NewInMemoryCacheWithConfig] refuses: items of up to three
    bytes in a cache of two. *)
Definition demo_misconfigured : InMemoryCache :=
  {| logger := []; maxSizeBytes := 2; maxItemSizeBytes := 3;
     name := "demo"; curSize := 0; lru := []; metrics := zero_metrics |}.

(** ** A small cache to run the methods on *)

Definition demo_heap : mem.heap := [[x01; x02; x03; x04]].

Definition demo_config : InMemoryCacheConfig :=
  {| MaxSize := 4; MaxItemSize := 3 |}.

(** What [NewInMemoryCacheWithConfig] returns for [demo_config]. *)
Definition demo_cache : InMemoryCache :=
  {| logger := [LogCreated 3 4]; maxSizeBytes := 4; maxItemSizeBytes := 3;
     name := "demo"; curSize := 0; lru := []; metrics := zero_metrics |}.

(** Two entries of two bytes each fill the four bytes; "a" expires at 11
    and "b" at 13. *)
Definition demo_ops : list op :=
  [OpSet 1 "a" (mem.Slice 0 0 2) 10; OpSet 3 "b" (mem.Slice 0 2 2) 10].

(** The heap and the cache after [demo_ops]: "b" above "a", four bytes
    held. *)
Definition demo_full : mem.heap * InMemoryCache :=
  Eval vm_compute in
    default (demo_heap, demo_cache) (run demo_ops (demo_heap, demo_cache)).

(** ** Facts on the recency list *)

Section lru_facts.
Context {V : Type}.
Implicit Types (l : simplelru.LRU V) (key k : string) (v : V).

Lemma find_None_keys key l :
  simplelru.find key l = None ↔ key ∉ simplelru.keys l.
Proof.
  unfold simplelru.keys.
  induction l as [|[k w] l IH]; simpl.
  - split; [intros _; apply not_elem_of_nil | done].
  - rewrite not_elem_of_cons.
    destruct (String.eqb_spec k key) as [->|Hne]; split.
    + done.
    + intros [? _]. done.
    + intros H. split; [congruence | by apply IH].
    + intros [_ H]. by apply IH.
Qed.

Lemma remove_absent key l :
  simplelru.find key l = None → simplelru.remove key l = l.
Proof.
  induction l as [|[k w] l IH]; simpl; [done|].
  destruct (String.eqb k key); [done|]. intros H. by rewrite IH.
Qed.

Lemma remove_perm key l v :
  simplelru.find key l = Some v → l ≡ₚ (key, v) :: simplelru.remove key l.
Proof.
  induction l as [|[k w] l IH]; simpl; [done|].
  destruct (String.eqb_spec k key) as [->|Hne].
  - by intros [= ->].
  - intros H. rewrite (IH H) at 1. apply Permutation_swap.
Qed.

Lemma keys_remove_sublist key l :
  simplelru.keys (simplelru.remove key l) `sublist_of` simplelru.keys l.
Proof.
  unfold simplelru.keys.
  induction l as [|[k w] l IH]; simpl; [done|].
  destruct (String.eqb k key); simpl.
  - by apply sublist_cons.
  - by apply sublist_skip.
Qed.

Lemma Forall_remove (P : string * V → Prop) key l :
  Forall P l → Forall P (simplelru.remove key l).
Proof.
  induction 1 as [|[k w] l' Hx Hl IH]; simpl; [done|].
  destruct (String.eqb k key); [done | by apply Forall_cons].
Qed.

Lemma NoDup_keys_remove key l :
  NoDup (simplelru.keys l) → NoDup (simplelru.keys (simplelru.remove key l)).
Proof. intros H. eapply sublist_NoDup; [done | apply keys_remove_sublist]. Qed.

Lemma find_remove_ne key k l :
  k ≠ key → simplelru.find k (simplelru.remove key l) = simplelru.find k l.
Proof.
  intros Hne. induction l as [|[k' w] l IH]; simpl; [done|].
  destruct (String.eqb_spec k' key) as [->|Hne'].
  - destruct (String.eqb_spec key k); [congruence | done].
  - simpl. by rewrite IH.
Qed.

Lemma find_remove_eq key l :
  NoDup (simplelru.keys l) →
  simplelru.find key (simplelru.remove key l) = None.
Proof.
  unfold simplelru.keys.
  induction l as [|[k w] l IH]; simpl; [done|].
  intros [Hk Hl]%NoDup_cons.
  destruct (String.eqb_spec k key) as [->|Hne].
  - by apply find_None_keys.
  - simpl. destruct (String.eqb_spec k key); [congruence | auto].
Qed.

Lemma RemoveOldest_snoc l e :
  simplelru.RemoveOldest (l ++ [e]) = (Some e, l).
Proof.
  unfold simplelru.RemoveOldest. by rewrite last_snoc, removelast_last.
Qed.

End lru_facts.

(** ** Facts on sizes *)

Lemma uint64_small z : 0 <= z < uint64_modulus → uint64 z = z.
Proof. intros H. unfold uint64. by apply Z.mod_small. Qed.

Lemma uint64_range z : 0 <= uint64 z < uint64_modulus.
Proof. unfold uint64. apply Z.mod_pos_bound. by compute. Qed.

Lemma len_nonneg b : 0 <= mem.len b.
Proof. destruct b; simpl; lia. Qed.

Lemma len_nlen b : mem.len b = Z.of_nat (mem.nlen b).
Proof. by destruct b. Qed.

Lemma entry_size_nonneg e : 0 <= entry_size e.
Proof. apply len_nonneg. Qed.

Lemma stored_bytes_nonneg l : 0 <= stored_bytes l.
Proof.
  induction l as [|e l IH]; simpl; [lia|].
  pose proof (entry_size_nonneg e). lia.
Qed.

Lemma stored_bytes_app l1 l2 :
  stored_bytes (l1 ++ l2) = stored_bytes l1 + stored_bytes l2.
Proof. induction l1 as [|e l1 IH]; simpl; lia. Qed.

Lemma stored_bytes_perm l1 l2 : l1 ≡ₚ l2 → stored_bytes l1 = stored_bytes l2.
Proof. induction 1; simpl; lia. Qed.

Lemma stored_bytes_remove key l v :
  simplelru.find key l = Some v →
  stored_bytes l = mem.len (data v) + stored_bytes (simplelru.remove key l).
Proof. intros H. by rewrite (stored_bytes_perm _ _ (remove_perm _ _ _ H)). Qed.

Lemma snoc_cases {A} (l : list A) : l = [] ∨ ∃ l' x, l = l' ++ [x].
Proof. induction l using rev_ind; eauto. Qed.

Lemma same_limits_trans c1 c2 c3 :
  same_limits c1 c2 → same_limits c2 c3 → same_limits c1 c3.
Proof. unfold same_limits. intros (? & ? & ?) (? & ? & ?). repeat split; congruence. Qed.

Lemma limits_ok_same c c' : same_limits c c' → limits_ok c → limits_ok c'.
Proof. intros (H1 & H2 & _) [? ? ?]. split; rewrite ?H1, ?H2; done. Qed.

(** ** The room-making loop *)

Lemma lru_RemoveOldest_snoc c l k v :
  lru c = l ++ [(k, v)] →
  lru_RemoveOldest c = (onEvict k v (with_lru l c), true).
Proof.
  intros H. unfold lru_RemoveOldest. by rewrite H, RemoveOldest_snoc.
Qed.

Lemma lru_RemoveOldest_nil c :
  lru c = [] → lru_RemoveOldest c = (c, false).
Proof. intros H. unfold lru_RemoveOldest. by rewrite H. Qed.

(** From a state whose [curSize] is the sum of the stored sizes the loop
    stops within one turn per entry, drops a suffix of the recency list
    (the oldest entries), never resets (the log is unchanged), and stops at
    the first state in which its condition is false. *)
Lemma ensureFits_loop_spec fuel size c :
  0 <= size <= maxSizeBytes c →
  maxSizeBytes c < uint64_modulus →
  curSize c = stored_bytes (lru c) →
  curSize c < uint64_modulus →
  (length (lru c) <= fuel)%nat →
  ∃ c' dropped,
    ensureFits_loop fuel size c = Some c'
    ∧ lru c = lru c' ++ dropped
    ∧ curSize c' = stored_bytes (lru c')
    ∧ uint64 (curSize c' + size) <= maxSizeBytes c
    ∧ (∀ keep older, lru c = keep ++ older →
         (length (lru c') < length keep)%nat →
         maxSizeBytes c < uint64 (stored_bytes keep + size))
    ∧ logger c' = logger c
    ∧ same_limits c c'
    ∧ evicted (metrics c') = evicted (metrics c) + Z.of_nat (length dropped)
    ∧ overflow (metrics c') = overflow (metrics c)
    ∧ added (metrics c') = added (metrics c).
Proof.
  revert c. induction fuel as [|fuel IH]; intros c Hsize Hmax Hsum Hcur Hlen.
  - assert (lru c = []) as Hnil by (destruct (lru c); simpl in *; [done|lia]).
    assert (curSize c = 0) as H0 by (by rewrite Hsum, Hnil).
    exists c, []. simpl. rewrite H0, Z.add_0_l, uint64_small by lia.
    destruct (Z.gtb_spec size (maxSizeBytes c)); [lia|].
    rewrite Hnil. simpl. split_and!; try done; try lia.
    intros keep older Hk Hl. destruct keep; simpl in *; [lia | done].
  - simpl. destruct (Z.gtb_spec (uint64 (curSize c + size)) (maxSizeBytes c))
      as [Hgt|Hle].
    2:{ exists c, []. rewrite app_nil_r. simpl.
        split_and!; try done; try lia.
        intros keep older Hk Hl. rewrite Hk, length_app in Hl. lia. }
    destruct (snoc_cases (lru c)) as [Hnil|(l & [k v] & Hl)].
    { assert (curSize c = 0) as H0 by (by rewrite Hsum, Hnil).
      rewrite H0, Z.add_0_l, uint64_small in Hgt; lia. }
    rewrite (lru_RemoveOldest_snoc _ _ _ _ Hl).
    assert (stored_bytes (lru c) = stored_bytes l + mem.len (data v)) as Hs.
    { rewrite Hl, stored_bytes_app. simpl. unfold entry_size. simpl. lia. }
    pose proof (stored_bytes_nonneg l) as Hl0.
    pose proof (len_nonneg (data v)) as Hv0.
    destruct (IH (onEvict k v (with_lru l c)))
      as (c' & dropped & Hrun & Hlru & Hsum' & Hfit & Hmin & Hlog & Hlim
          & Hev & Hov & Had); simpl.
    + done.
    + done.
    + rewrite uint64_small; lia.
    + apply uint64_range.
    + rewrite Hl, length_app in Hlen. simpl in Hlen. lia.
    + exists c', (dropped ++ [(k, v)]). simpl in *.
      split; [done|]. split; [by rewrite Hl, Hlru, app_assoc|].
      split; [done|]. split; [done|]. split.
      { intros keep older Hk Hlt.
        destruct (snoc_cases older) as [->|(older' & x & ->)].
        - rewrite app_nil_r in Hk. subst keep. by rewrite <-Hsum.
        - rewrite Hl, app_assoc in Hk. apply app_inj_tail in Hk as [Hk _].
          by apply (Hmin keep older'). }
      split; [done|]. split; [done|].
      rewrite length_app. simpl. repeat split; try done. lia.
Qed.

(** ** [reset] *)

Lemma fold_onEvict_frame dropped c :
  let c' := fold_left (fun c e => onEvict e.1 e.2 c) dropped c in
  lru c' = lru c ∧ same_limits c c' ∧ logger c' = logger c.
Proof.
  revert c. induction dropped as [|e dropped IH]; intros c; simpl; [done|].
  destruct (IH (onEvict e.1 e.2 c)) as (H1 & (H2 & H3 & H4) & H5).
  simpl in *. by split_and!.
Qed.

Lemma reset_lru c : lru (reset c) = [].
Proof.
  unfold reset, lru_Purge. simpl.
  by destruct (fold_onEvict_frame (lru c) (with_lru [] c)) as (-> & _).
Qed.

Lemma reset_curSize c : curSize (reset c) = 0.
Proof. done. Qed.

Lemma reset_same_limits c : same_limits c (reset c).
Proof.
  unfold reset, lru_Purge. simpl.
  destruct (fold_onEvict_frame (lru c) (with_lru [] c)) as (_ & H & _).
  done.
Qed.

(** ** The fuel of [ensureFits] is enough *)

Lemma ensureFits_loop_more fuel fuel' size c c' :
  ensureFits_loop fuel size c = Some c' →
  (fuel <= fuel')%nat →
  ensureFits_loop fuel' size c = Some c'.
Proof.
  revert fuel' c. induction fuel as [|fuel IH]; intros fuel' c; simpl.
  - destruct fuel'; simpl; destruct (_ >? _); done.
  - intros H Hle. destruct fuel' as [|fuel']; [lia|]. simpl.
    destruct (_ >? _); [|done].
    destruct (lru_RemoveOldest c) as [c1 []]; apply IH; (done || lia).
Qed.

(** With nothing stored and the item above the total limit every turn of
    the loop resets and comes back to the same test. *)
Lemma ensureFits_loop_stuck fuel size c :
  lru c = [] → curSize c = 0 →
  maxSizeBytes c < uint64 (0 + size) →
  ensureFits_loop fuel size c = None.
Proof.
  revert c. induction fuel as [|fuel IH]; intros c Hl Hc Hgt; simpl;
    rewrite Hc; destruct (Z.gtb_spec (uint64 (0 + size)) (maxSizeBytes c));
    try done; try lia.
  rewrite (lru_RemoveOldest_nil _ Hl). apply IH.
  - apply reset_lru.
  - done.
  - by destruct (reset_same_limits
      (log (LogResetting (maxItemSizeBytes c) (maxSizeBytes c) (curSize c) size) c))
      as (-> & _).
Qed.

Lemma ensureFits_loop_S fuel size c :
  ensureFits_loop (S fuel) size c =
  if uint64 (curSize c + size) >? maxSizeBytes c then
    match lru_RemoveOldest c with
    | (c', true) => ensureFits_loop fuel size c'
    | (c', false) =>
        ensureFits_loop fuel size
          (reset (log (LogResetting (maxItemSizeBytes c') (maxSizeBytes c')
                         (curSize c') size) c'))
    end
  else Some c.
Proof. done. Qed.

Lemma ensureFits_loop_O size c :
  ensureFits_loop O size c =
  if uint64 (curSize c + size) >? maxSizeBytes c then None else Some c.
Proof. done. Qed.

Lemma ensureFits_loop_None_test fuel size c :
  ensureFits_loop fuel size c = None →
  maxSizeBytes c < uint64 (curSize c + size).
Proof.
  destruct fuel; [simpl | rewrite ensureFits_loop_S];
    destruct (Z.gtb_spec (uint64 (curSize c + size)) (maxSizeBytes c)); done.
Qed.

Lemma ensureFits_loop_None_turn fuel size c c1 :
  maxSizeBytes c < uint64 (curSize c + size) →
  (∀ fuel', ensureFits_loop (S fuel') size c = ensureFits_loop fuel' size c1) →
  (∀ fuel', ensureFits_loop fuel' size c1 = None) →
  ensureFits_loop fuel size c = None.
Proof.
  intros Hgt Hturn Hrec. destruct fuel as [|fuel].
  - simpl. destruct (Z.gtb_spec (uint64 (curSize c + size)) (maxSizeBytes c));
      [done | lia].
  - by rewrite Hturn.
Qed.

(** A loop that has not stopped after one turn per entry and two more
    never stops: [None] in [ensureFits] and [set] stands for a call that
    does not return. *)
Lemma ensureFits_loop_diverges size c :
  ensureFits_loop (S (S (length (lru c)))) size c = None →
  ∀ fuel, ensureFits_loop fuel size c = None.
Proof.
  remember (length (lru c)) as n eqn:Hn. revert c Hn.
  induction n as [|n IH]; intros c Hn H fuel;
    pose proof (ensureFits_loop_None_test _ _ _ H) as Hgt;
    apply Z.gtb_lt in Hgt as Hgtb.
  - assert (lru c = []) as Hl by (by destruct (lru c)).
    rewrite ensureFits_loop_S, Hgtb, (lru_RemoveOldest_nil _ Hl) in H.
    apply ensureFits_loop_None_test in H as Hgt1.
    eapply ensureFits_loop_None_turn; [done| |].
    + intros fuel'.
      by rewrite ensureFits_loop_S, Hgtb, (lru_RemoveOldest_nil _ Hl).
    + intros fuel'. apply ensureFits_loop_stuck; [apply reset_lru|done|done].
  - destruct (snoc_cases (lru c)) as [Hl|(l & [k v] & Hl)].
    { rewrite Hl in Hn. done. }
    rewrite ensureFits_loop_S, Hgtb, (lru_RemoveOldest_snoc _ _ _ _ Hl) in H.
    eapply ensureFits_loop_None_turn; [done| |].
    + intros fuel'.
      by rewrite ensureFits_loop_S, Hgtb, (lru_RemoveOldest_snoc _ _ _ _ Hl).
    + apply IH; [|done]. simpl. rewrite Hl, length_app in Hn. simpl in Hn. lia.
Qed.

(** ** The three outcomes of [get] *)

Lemma get_miss now key c :
  simplelru.find key (lru c) = None →
  get now key c = ((mem.nil, false), inc_requests c).
Proof. intros H. unfold get, simplelru.Get. simpl. by rewrite H. Qed.

Lemma get_hit now key c v :
  simplelru.find key (lru c) = Some v →
  now <= expiryTime v →
  get now key c =
    ((data v, true),
     inc_hits (with_lru ((key, v) :: simplelru.remove key (lru c))
                 (inc_requests c))).
Proof.
  intros H Hnow. unfold get, simplelru.Get, time_After. simpl. rewrite H.
  by destruct (Z.ltb_spec (expiryTime v) now); [lia|].
Qed.

Lemma get_expired now key c v :
  simplelru.find key (lru c) = Some v →
  expiryTime v < now →
  get now key c =
    ((mem.nil, false),
     onEvict key v (with_lru (simplelru.remove key (lru c))
                      (inc_hitsExpired (inc_requests c)))).
Proof.
  intros H Hnow. unfold get, simplelru.Get, time_After. simpl. rewrite H.
  destruct (Z.ltb_spec (expiryTime v) now); [|lia].
  unfold lru_Remove, simplelru.Remove. simpl. by rewrite String.eqb_refl.
Qed.

(** ** The three outcomes of [set] *)

Lemma set_present now key val ttl h c v :
  simplelru.find key (lru c) = Some v →
  set now key val ttl (h, c) =
    Some (h, with_lru ((key, v) :: simplelru.remove key (lru c)) c).
Proof. intros H. unfold set, simplelru.Get. by rewrite H. Qed.

Lemma set_too_big now key val ttl h c :
  simplelru.find key (lru c) = None →
  maxItemSizeBytes c < mem.len val →
  set now key val ttl (h, c) =
    Some (h, inc_overflow
               (log (LogItemTooBig (maxItemSizeBytes c) (maxSizeBytes c)
                       (curSize c) (mem.len val)) c)).
Proof.
  intros H Hbig. unfold set, simplelru.Get, ensureFits. rewrite H.
  by destruct (Z.gtb_spec (mem.len val) (maxItemSizeBytes c)); [|lia].
Qed.

Lemma set_new now key val ttl h c c1 :
  simplelru.find key (lru c) = None →
  mem.len val <= maxItemSizeBytes c →
  ensureFits_loop (S (S (length (lru c)))) (mem.len val) c = Some c1 →
  ∃ c2,
    set now key val ttl (h, c) =
      Some (mem.copy (mem.Slice (length h) 0 (mem.nlen val)) val
              (h ++ [replicate (mem.nlen val) x00]), c2)
    ∧ lru c2 = (key, new_entry now val ttl h) :: simplelru.remove key (lru c1)
    ∧ curSize c2 = uint64 (curSize c1 + mem.len val)
    ∧ same_limits c1 c2
    ∧ logger c2 = logger c1
    ∧ added (metrics c2) = added (metrics c1) + 1
    ∧ evicted (metrics c2) = evicted (metrics c1)
    ∧ overflow (metrics c2) = overflow (metrics c1).
Proof.
  intros H Hfit Hloop. unfold set, simplelru.Get, ensureFits. rewrite H.
  destruct (Z.gtb_spec (mem.len val) (maxItemSizeBytes c)); [lia|].
  rewrite Hloop. simpl. eexists. split; [reflexivity|]. simpl. by split_and!.
Qed.

(** ** The byte accounting is kept by every method *)

Lemma no_wrap_same c c' : same_limits c c' → no_wrap c → no_wrap c'.
Proof. unfold no_wrap. by intros (-> & -> & _). Qed.

Lemma accounted_promote key v c c' :
  simplelru.find key (lru c) = Some v →
  lru c' = (key, v) :: simplelru.remove key (lru c) →
  curSize c' = curSize c →
  same_limits c c' →
  accounted c → accounted c'.
Proof.
  intros Hf Hl Hc (Hm & Hi & _) [H1 H2 H3 H4].
  pose proof (remove_perm _ _ _ Hf) as Hp.
  split; rewrite ?Hl, ?Hc, ?Hm, ?Hi.
  - by rewrite H1, (stored_bytes_perm _ _ Hp).
  - done.
  - by rewrite <-Hp.
  - unfold simplelru.keys in *. by rewrite <-Hp.
Qed.

Lemma get_accounted now key c :
  limits_ok c → accounted c →
  accounted (get now key c).2 ∧ same_limits c (get now key c).2.
Proof.
  intros Hlim Hacc.
  destruct (simplelru.find key (lru c)) as [v|] eqn:Hf.
  - destruct (Z.le_gt_cases now (expiryTime v)) as [Hle|Hgt].
    + rewrite (get_hit _ _ _ _ Hf Hle). simpl. split; [|done].
      by eapply accounted_promote.
    + rewrite (get_expired _ _ _ _ Hf) by lia. simpl. split; [|done].
      destruct Hacc as [H1 H2 H3 H4], Hlim as [L1 L2 L3].
      pose proof (stored_bytes_remove _ _ _ Hf) as Hs.
      pose proof (stored_bytes_nonneg (simplelru.remove key (lru c))).
      pose proof (len_nonneg (data v)).
      assert (uint64 (curSize c - mem.len (data v))
              = stored_bytes (simplelru.remove key (lru c))) as Hu.
      { rewrite uint64_small; lia. }
      split; simpl; rewrite ?Hu.
      * done.
      * lia.
      * by apply Forall_remove.
      * by apply NoDup_keys_remove.
  - rewrite (get_miss _ _ _ Hf). simpl. split; [|done].
    by destruct Hacc.
Qed.

Lemma reset_accounted c : limits_ok c → accounted (reset c).
Proof.
  intros [L1 L2 L3].
  destruct (reset_same_limits c) as (Hm & Hi & _).
  split; rewrite ?reset_lru, ?reset_curSize, ?Hm; try done; try lia.
  apply NoDup_nil_2.
Qed.

Lemma set_accounted now key val ttl h c :
  limits_ok c → no_wrap c → accounted c →
  ∃ h' c', set now key val ttl (h, c) = Some (h', c')
           ∧ accounted c' ∧ same_limits c c'.
Proof.
  intros Hlim Hnw Hacc.
  destruct (simplelru.find key (lru c)) as [v|] eqn:Hf.
  { rewrite (set_present _ _ _ _ _ _ _ Hf). do 2 eexists. split; [done|].
    split; [|done]. by eapply accounted_promote. }
  destruct (Z.lt_ge_cases (maxItemSizeBytes c) (mem.len val)) as [Hbig|Hok].
  { rewrite (set_too_big _ _ _ _ _ _ Hf Hbig). do 2 eexists. split; [done|].
    split; [|done]. by destruct Hacc. }
  destruct Hacc as [H1 H2 H3 H4], Hlim as [L1 L2 L3]. unfold no_wrap in Hnw.
  pose proof (len_nonneg val) as Hv0.
  destruct (ensureFits_loop_spec (S (S (length (lru c)))) (mem.len val) c)
    as (c1 & dropped & Hloop & Hl & Hs1 & Hfit & _ & _ & Hlim1 & _);
    try lia.
  destruct (set_new now key val ttl h c c1 Hf ltac:(lia) Hloop)
    as (c2 & -> & Hl2 & Hc2 & Hlim2 & _).
  do 2 eexists. split; [done|].
  pose proof (same_limits_trans _ _ _ Hlim1 Hlim2) as Hlim12.
  split; [|done].
  destruct Hlim12 as (Hm & Hi & _).
  pose proof (stored_bytes_nonneg (lru c1)).
  pose proof (stored_bytes_nonneg dropped).
  assert (curSize c1 <= curSize c) as Hle.
  { rewrite H1, Hs1, Hl, stored_bytes_app. lia. }
  rewrite uint64_small in Hfit by lia. rewrite uint64_small in Hc2 by lia.
  assert (simplelru.find key (lru c1) = None) as Hf1.
  { apply find_None_keys. apply find_None_keys in Hf.
    intros Hin. apply Hf. unfold simplelru.keys in *.
    rewrite Hl, fmap_app. apply elem_of_app. by left. }
  rewrite (remove_absent _ _ Hf1) in Hl2.
  split; rewrite ?Hl2, ?Hc2, ?Hm, ?Hi.
  - simpl. unfold entry_size at 1. simpl. rewrite len_nlen in *. lia.
  - done.
  - apply Forall_cons. split.
    + unfold entry_size. simpl. rewrite len_nlen in Hok. lia.
    + rewrite Hl in H3. by apply Forall_app in H3 as [? _].
  - unfold simplelru.keys in *. simpl. apply NoDup_cons. split.
    + by apply find_None_keys in Hf1.
    + rewrite Hl, fmap_app in H4. by apply NoDup_app in H4 as (? & _).
Qed.

Lemma Store_cons now key val ttl data w :
  Store ((now, (key, val)) :: data) ttl w =
  set now key val ttl w ≫= Store data ttl.
Proof. done. Qed.

Lemma Fetch_loop_cons now key keys results c :
  Fetch_loop ((now, key) :: keys) results c =
  Fetch_loop keys
    (if (get now key c).1.2 then <[key := (get now key c).1.1]> results
     else results)
    (get now key c).2.
Proof. simpl. by destruct (get now key c) as [[b ok] c1]. Qed.

Lemma run_cons o ops w : run (o :: ops) w = step o w ≫= run ops.
Proof. done. Qed.

Lemma Store_accounted data ttl h c :
  limits_ok c → no_wrap c → accounted c →
  ∃ h' c', Store data ttl (h, c) = Some (h', c')
           ∧ accounted c' ∧ same_limits c c'.
Proof.
  revert h c. induction data as [|(now & key & val) data IH];
    intros h c Hlim Hnw Hacc.
  - by exists h, c.
  - rewrite Store_cons.
    destruct (set_accounted now key val ttl h c) as (h1 & c1 & -> & Ha1 & Hs1);
      try done.
    destruct (IH h1 c1) as (h2 & c2 & Hr & Ha2 & Hs2);
      eauto using limits_ok_same, no_wrap_same.
    exists h2, c2. eauto using same_limits_trans.
Qed.

Lemma Fetch_loop_accounted keys results c :
  limits_ok c → accounted c →
  accounted (Fetch_loop keys results c).2
  ∧ same_limits c (Fetch_loop keys results c).2.
Proof.
  revert results c. induction keys as [|(now & key) keys IH];
    intros results c Hlim Hacc; [done|].
  rewrite Fetch_loop_cons.
  destruct (get_accounted now key c Hlim Hacc) as (Ha & Hs).
  edestruct IH as (Ha2 & Hs2); [by eapply limits_ok_same | done |].
  eauto using same_limits_trans.
Qed.

Lemma step_accounted o h c :
  limits_ok c → no_wrap c → accounted c →
  ∃ h' c', step o (h, c) = Some (h', c') ∧ accounted c' ∧ same_limits c c'.
Proof.
  intros Hlim Hnw Hacc. destruct o as [now key|now key val ttl|data ttl|keys|];
    unfold step; cbn [fst snd].
  - destruct (get_accounted now key c Hlim Hacc). eauto.
  - by apply set_accounted.
  - by apply Store_accounted.
  - destruct (Fetch_loop_accounted keys ∅ c Hlim Hacc). unfold Fetch. eauto.
  - do 2 eexists. split; [done|]. split.
    + by apply reset_accounted.
    + apply reset_same_limits.
Qed.

Lemma run_accounted ops h c :
  limits_ok c → no_wrap c → accounted c →
  ∃ h' c', run ops (h, c) = Some (h', c') ∧ accounted c' ∧ same_limits c c'.
Proof.
  revert h c. induction ops as [|o ops IH]; intros h c Hlim Hnw Hacc.
  - by exists h, c.
  - rewrite run_cons.
    destruct (step_accounted o h c) as (h1 & c1 & -> & Ha1 & Hs1); try done.
    destruct (IH h1 c1) as (h2 & c2 & Hr & Ha2 & Hs2);
      eauto using limits_ok_same, no_wrap_same.
    exists h2, c2. eauto using same_limits_trans.
Qed.

(** ** The loop always stops when the item limit is within the total limit *)

Lemma ensureFits_loop_total fuel size c :
  0 <= size <= maxSizeBytes c →
  maxSizeBytes c < uint64_modulus →
  (S (length (lru c)) <= fuel)%nat →
  ∃ c' dropped,
    ensureFits_loop fuel size c = Some c'
    ∧ lru c = lru c' ++ dropped
    ∧ same_limits c c'.
Proof.
  revert c. induction fuel as [|fuel IH]; intros c Hsize Hmax Hlen; [lia|].
  rewrite ensureFits_loop_S.
  destruct (Z.gtb_spec (uint64 (curSize c + size)) (maxSizeBytes c)).
  2:{ exists c, []. by rewrite app_nil_r. }
  destruct (snoc_cases (lru c)) as [Hnil|(l & [k v] & Hl)].
  - rewrite (lru_RemoveOldest_nil _ Hnil).
    set (c1 := reset _).
    assert (same_limits c c1) as Hlim by apply (reset_same_limits (log _ c)).
    exists c1, []. split; [|split; [|done]].
    + assert (ensureFits_loop fuel size c1 = Some c1) as ->; [|done].
      destruct Hlim as (Hm & _).
      assert (curSize c1 = 0) as Hc1 by done.
      destruct fuel; [rewrite ensureFits_loop_O | rewrite ensureFits_loop_S];
        rewrite Hc1, Z.add_0_l, Hm, uint64_small by lia;
        by destruct (Z.gtb_spec size (maxSizeBytes c)); [lia|].
    + unfold c1. by rewrite reset_lru, Hnil.
  - rewrite (lru_RemoveOldest_snoc _ _ _ _ Hl).
    destruct (IH (onEvict k v (with_lru l c)))
      as (c' & dropped & Hrun & Hlru & Hlim); simpl; try done.
    { rewrite Hl, length_app in Hlen. simpl in Hlen. lia. }
    exists c', (dropped ++ [(k, v)]). simpl in *.
    split; [done|]. split; [|done]. by rewrite Hl, Hlru, app_assoc.
Qed.

(** Under the limits the constructor accepts, [set] returns. *)
Lemma set_total now key val ttl h c :
  limits_ok c → is_Some (set now key val ttl (h, c)).
Proof.
  intros [L1 L2 L3].
  destruct (simplelru.find key (lru c)) as [v|] eqn:Hf.
  { by rewrite (set_present _ _ _ _ _ _ _ Hf). }
  destruct (Z.lt_ge_cases (maxItemSizeBytes c) (mem.len val)) as [Hbig|Hok].
  { by rewrite (set_too_big _ _ _ _ _ _ Hf Hbig). }
  pose proof (len_nonneg val).
  destruct (ensureFits_loop_total (S (S (length (lru c)))) (mem.len val) c)
    as (c1 & dropped & Hloop & _); try lia.
  destruct (set_new now key val ttl h c c1 Hf Hok Hloop) as (c2 & -> & _).
  done.
Qed.

Lemma ensureFits_resets_zero fuel size c :
  0 <= size <= maxSizeBytes c →
  maxSizeBytes c < uint64_modulus →
  curSize c = stored_bytes (lru c) →
  curSize c < uint64_modulus →
  ensureFits_resets fuel size c = O.
Proof.
  revert c. induction fuel as [|fuel IH]; intros c Hsize Hmax Hsum Hcur; simpl;
    destruct (Z.gtb_spec (uint64 (curSize c + size)) (maxSizeBytes c))
      as [Hgt|]; try done.
  destruct (snoc_cases (lru c)) as [Hnil|(l & [k v] & Hl)].
  { assert (curSize c = 0) as H0 by (by rewrite Hsum, Hnil).
    rewrite H0, Z.add_0_l, uint64_small in Hgt; lia. }
  rewrite (lru_RemoveOldest_snoc _ _ _ _ Hl).
  assert (stored_bytes (lru c) = stored_bytes l + mem.len (data v)) as Hs.
  { rewrite Hl, stored_bytes_app. simpl. unfold entry_size. simpl. lia. }
  pose proof (stored_bytes_nonneg l). pose proof (len_nonneg (data v)).
  apply IH; simpl; try done.
  - rewrite uint64_small; lia.
  - apply uint64_range.
Qed.

(** ** Facts on the heap *)

Lemma read_length h b : mem.valid h b → length (mem.read h b) = mem.nlen b.
Proof.
  destruct b as [|a o n]; simpl; [done|].
  destruct (h !! a) as [A|]; [|done]. simpl. intros H.
  rewrite length_take, length_drop. lia.
Qed.

(** Allocation leaves what older slices show. *)
Lemma read_app h h' b : mem.valid h b → mem.read (h ++ h') b = mem.read h b.
Proof.
  destruct b as [|a o n]; simpl; [done|].
  destruct (h !! a) as [A|] eqn:E; [|done]. intros _.
  by rewrite (lookup_app_l_Some _ _ _ _ E).
Qed.

(** What [set] leaves in the array it allocates. *)
Lemma read_make_copy h val :
  mem.valid h val →
  let dst := mem.Slice (length h) 0 (mem.nlen val) in
  let h' := mem.copy dst val (h ++ [replicate (mem.nlen val) x00]) in
  mem.read h' dst = mem.read h val
  ∧ mem.valid h' dst
  ∧ length h' = S (length h)
  ∧ (∀ s, mem.valid h s → mem.read h' s = mem.read h s ∧ mem.valid h' s).
Proof.
  intros Hv. simpl. unfold mem.copy. simpl.
  rewrite Nat.min_id, (read_app _ _ _ Hv).
  pose proof (read_length _ _ Hv) as Hlen.
  rewrite (take_ge (mem.read h val)) by lia.
  rewrite (list_lookup_middle h [] _ (length h) eq_refl).
  rewrite Hlen, (drop_ge (replicate _ _)) by (rewrite length_replicate; lia).
  rewrite app_nil_r.
  replace (<[length h:=mem.read h val]> (h ++ [replicate (mem.nlen val) x00]))
    with (h ++ [mem.read h val]).
  2:{ by rewrite (insert_app_r_alt h _ (length h)), Nat.sub_diag. }
  split_and!.
  - rewrite (list_lookup_middle h [] _ (length h) eq_refl). simpl.
    rewrite drop_0, take_ge; [done | lia].
  - rewrite (list_lookup_middle h [] _ (length h) eq_refl). lia.
  - rewrite length_app. simpl. lia.
  - intros [|a o n]; simpl; [done|].
    destruct (h !! a) as [A|] eqn:E; [|done]. intros Hs.
    by rewrite (lookup_app_l_Some _ _ _ _ E).
Qed.

(** A write through a slice shows in that slice, at that index only. *)
Lemma read_store_same h a o n i x h' :
  mem.valid h (mem.Slice a o n) →
  mem.store h (mem.Slice a o n) i x = Some h' →
  mem.read h' (mem.Slice a o n) = <[i := x]> (mem.read h (mem.Slice a o n))
  ∧ mem.valid h' (mem.Slice a o n).
Proof.
  simpl. destruct (decide (i < n)%nat) as [Hi|]; [|done].
  destruct (h !! a) as [A|] eqn:E; [|done]. intros Hv [= <-]. simpl.
  rewrite list_lookup_insert_eq by (by eapply lookup_lt_Some). simpl.
  rewrite drop_insert_ge by lia. rewrite take_insert_lt by lia.
  replace (o + i - o)%nat with i by lia. split; [done|].
  by rewrite length_insert.
Qed.

(** A write through a slice of one array leaves the slices of the others. *)
Lemma read_store_other h a o n i x h' a' o' n' :
  mem.store h (mem.Slice a o n) i x = Some h' →
  a ≠ a' →
  mem.read h' (mem.Slice a' o' n') = mem.read h (mem.Slice a' o' n').
Proof.
  simpl. destruct (decide (i < n)%nat); [|done].
  destruct (h !! a) as [A|]; [|done]. intros [= <-] Hne. simpl.
  by rewrite list_lookup_insert_ne.
Qed.

Lemma valid_lt h a o n : mem.valid h (mem.Slice a o n) → (a < length h)%nat.
Proof.
  simpl. destruct (h !! a) as [A|] eqn:E; [|done]. intros _.
  by eapply lookup_lt_Some.
Qed.

(** ** A [set] that stores *)

Lemma set_stores now key val ttl h c :
  limits_ok c →
  simplelru.find key (lru c) = None →
  mem.len val <= maxItemSizeBytes c →
  ∃ c1 dropped c',
    ensureFits_loop (S (S (length (lru c)))) (mem.len val) c = Some c1
    ∧ lru c = lru c1 ++ dropped
    ∧ set now key val ttl (h, c) =
        Some (mem.copy (mem.Slice (length h) 0 (mem.nlen val)) val
                (h ++ [replicate (mem.nlen val) x00]), c')
    ∧ lru c' = (key, new_entry now val ttl h) :: lru c1
    ∧ curSize c' = uint64 (curSize c1 + mem.len val)
    ∧ same_limits c c'.
Proof.
  intros [L1 L2 L3] Hf Hok. pose proof (len_nonneg val).
  destruct (ensureFits_loop_total (S (S (length (lru c)))) (mem.len val) c)
    as (c1 & dropped & Hloop & Hl & Hlim1); try lia.
  destruct (set_new now key val ttl h c c1 Hf Hok Hloop)
    as (c2 & Hset & Hl2 & Hc2 & Hlim2 & _).
  exists c1, dropped, c2. split_and!; try done.
  - rewrite Hl2. f_equal. apply remove_absent, find_None_keys.
    apply find_None_keys in Hf. intros Hin. apply Hf.
    unfold simplelru.keys in *. rewrite Hl, fmap_app. apply elem_of_app. by left.
  - by eapply same_limits_trans.
Qed.

Lemma get_other_key now k key c :
  k ≠ key →
  simplelru.find key (lru (get now k c).2) = simplelru.find key (lru c).
Proof.
  intros Hne. destruct (simplelru.find k (lru c)) as [v|] eqn:Hf.
  - destruct (Z.le_gt_cases now (expiryTime v)) as [Hle|Hgt].
    + rewrite (get_hit _ _ _ _ Hf Hle). simpl.
      destruct (String.eqb_spec k key); [done|]. by apply find_remove_ne.
    + rewrite (get_expired _ _ _ _ Hf) by lia. simpl. by apply find_remove_ne.
  - by rewrite (get_miss _ _ _ Hf).
Qed.

(** ** Filling a cache that has room *)

Lemma set_no_eviction now key val ttl h c :
  simplelru.find key (lru c) = None →
  mem.len val <= maxItemSizeBytes c →
  0 <= curSize c →
  curSize c + mem.len val <= maxSizeBytes c →
  maxSizeBytes c < uint64_modulus →
  ∃ h' c',
    set now key val ttl (h, c) = Some (h', c')
    ∧ lru c' = (key, new_entry now val ttl h) :: lru c
    ∧ curSize c' = curSize c + mem.len val
    ∧ same_limits c c'
    ∧ evicted (metrics c') = evicted (metrics c).
Proof.
  intros Hf Hok Hcur Hfit Hmax. pose proof (len_nonneg val).
  assert (ensureFits_loop (S (S (length (lru c)))) (mem.len val) c = Some c)
    as Hloop.
  { rewrite ensureFits_loop_S, uint64_small by lia.
    by destruct (Z.gtb_spec (curSize c + mem.len val) (maxSizeBytes c)); [lia|]. }
  destruct (set_new now key val ttl h c c Hf Hok Hloop)
    as (c2 & Hset & Hl2 & Hc2 & Hlim2 & _ & _ & Hev & _).
  eexists _, c2. split; [exact Hset|].
  rewrite (remove_absent _ _ Hf) in Hl2. rewrite uint64_small in Hc2 by lia.
  done.
Qed.

Lemma data_bytes_nonneg items : 0 <= data_bytes items.
Proof.
  induction items as [|d items IH]; simpl; [lia|].
  pose proof (len_nonneg d.2.2). lia.
Qed.

Lemma Store_fresh_keys items ttl h c :
  NoDup (data_keys items ++ simplelru.keys (lru c)) →
  Forall (λ d, mem.len d.2.2 <= maxItemSizeBytes c) items →
  0 <= curSize c →
  curSize c + data_bytes items <= maxSizeBytes c →
  maxSizeBytes c < uint64_modulus →
  ∃ h' c',
    Store items ttl (h, c) = Some (h', c')
    ∧ simplelru.keys (lru c') = rev (data_keys items) ++ simplelru.keys (lru c)
    ∧ curSize c' = curSize c + data_bytes items
    ∧ same_limits c c'
    ∧ evicted (metrics c') = evicted (metrics c)
    ∧ (∀ k e, simplelru.find k (lru c) = Some e →
              simplelru.find k (lru c') = Some e)
    ∧ (∀ now k v, (now, (k, v)) ∈ items →
         ∃ e, simplelru.find k (lru c') = Some e
              ∧ expiryTime e = now + ttl
              ∧ mem.len (data e) = mem.len v).
Proof.
  revert h c. induction items as [|(now & key & val) items IH];
    intros h c Hnd Hall Hcur Hfit Hmax.
  { exists h, c. simpl in *. split_and!; try done; try lia.
    intros ??? Hin. by apply elem_of_nil in Hin. }
  unfold data_keys in *. simpl in Hnd, Hfit.
  apply NoDup_cons in Hnd as (Hkey & Hnd).
  apply Forall_cons in Hall as (Hlen & Hall). simpl in Hlen.
  pose proof (len_nonneg val). pose proof (data_bytes_nonneg items).
  assert (simplelru.find key (lru c) = None) as Hf.
  { apply find_None_keys. intros Hin. apply Hkey, elem_of_app. by right. }
  destruct (set_no_eviction now key val ttl h c)
    as (h1 & c1 & Hset & Hl1 & Hc1 & Hlim1 & Hev1); try done; try lia.
  destruct (IH h1 c1)
    as (h2 & c2 & Hst & Hk2 & Hc2 & Hlim2 & Hev2 & Hold & Hnew).
  - unfold simplelru.keys. rewrite Hl1. simpl.
    apply NoDup_app in Hnd as (Hnd1 & Hdisj & Hnd2).
    apply NoDup_app. split; [done|]. split.
    + intros k Hin1 [->|Hin2]%elem_of_cons.
      * apply Hkey, elem_of_app. by left.
      * by apply (Hdisj k).
    + apply NoDup_cons. split; [|done].
      intros Hin. apply Hkey, elem_of_app. by right.
  - by destruct Hlim1 as (_ & -> & _).
  - lia.
  - destruct Hlim1 as (-> & _). lia.
  - by destruct Hlim1 as (-> & _).
  - exists h2, c2. rewrite Store_cons, Hset. simpl. split; [exact Hst|].
    split_and!.
    + rewrite Hk2. unfold simplelru.keys. rewrite Hl1. simpl.
      by rewrite <-app_assoc.
    + lia.
    + by eapply same_limits_trans.
    + congruence.
    + intros k e Hke. apply Hold. rewrite Hl1. simpl.
      destruct (String.eqb_spec key k) as [->|]; [congruence | done].
    + intros now' k v [[= -> -> ->]|Hin]%elem_of_cons.
      * exists (new_entry now val ttl h).
        split; [|split; [done | simpl; by rewrite len_nlen]].
        apply Hold. rewrite Hl1. simpl. by rewrite String.eqb_refl.
      * by apply (Hnew now' k v).
Qed.

Lemma remove_middle {V} key (v : V) l1 l2 :
  key ∉ simplelru.keys l1 →
  simplelru.remove key (l1 ++ (key, v) :: l2) = l1 ++ l2.
Proof.
  unfold simplelru.keys.
  induction l1 as [|[k w] l1 IH]; simpl; intros Hn.
  - by rewrite String.eqb_refl.
  - apply not_elem_of_cons in Hn as (Hne & Hn).
    destruct (String.eqb_spec k key); [congruence|]. by rewrite IH.
Qed.

Lemma find_middle {V} key (v : V) l1 l2 :
  key ∉ simplelru.keys l1 →
  simplelru.find key (l1 ++ (key, v) :: l2) = Some v.
Proof.
  unfold simplelru.keys.
  induction l1 as [|[k w] l1 IH]; simpl; intros Hn.
  - by rewrite String.eqb_refl.
  - apply not_elem_of_cons in Hn as (Hne & Hn).
    destruct (String.eqb_spec k key); [congruence|]. by rewrite IH.
Qed.

Lemma elem_of_rev {A} (x : A) l : x ∈ rev l ↔ x ∈ l.
Proof. rewrite rev_alt. apply elem_of_reverse. Qed.

Lemma keys_snoc_inv {V} (l : simplelru.LRU V) ks k :
  simplelru.keys l = ks ++ [k] →
  ∃ l' v, l = l' ++ [(k, v)] ∧ simplelru.keys l' = ks.
Proof.
  unfold simplelru.keys. intros H.
  apply fmap_app_inv in H as (l1 & l2 & -> & H2 & ->).
  symmetry in H2. apply fmap_cons_inv in H2 as ([k' v] & l3 & -> & H3 & ->).
  symmetry in H3. apply fmap_nil_inv in H3 as ->. by exists l1, v.
Qed.

(** ** What a storing [set] drops *)

Lemma set_evicts_oldest now key val ttl h c :
  limits_ok c → no_wrap c → accounted c →
  simplelru.find key (lru c) = None →
  mem.len val <= maxItemSizeBytes c →
  ∃ h' c' kept dropped,
    set now key val ttl (h, c) = Some (h', c')
    ∧ lru c = kept ++ dropped
    ∧ lru c' = (key, new_entry now val ttl h) :: kept
    ∧ stored_bytes kept + mem.len val <= maxSizeBytes c
    ∧ (∀ keep older, lru c = keep ++ older →
         (length kept < length keep)%nat →
         maxSizeBytes c < stored_bytes keep + mem.len val)
    ∧ evicted (metrics c') = evicted (metrics c) + Z.of_nat (length dropped)
    ∧ logger c' = logger c.
Proof.
  intros [L1 L2 L3] Hnw [H1 H2 H3 H4] Hf Hok. unfold no_wrap in Hnw.
  pose proof (len_nonneg val) as Hv0.
  destruct (ensureFits_loop_spec (S (S (length (lru c)))) (mem.len val) c)
    as (c1 & dropped & Hloop & Hl & Hs1 & Hfit & Hmin & Hlog & Hlim1 & Hev & _);
    try lia.
  destruct (set_new now key val ttl h c c1 Hf Hok Hloop)
    as (c2 & Hset & Hl2 & _ & _ & Hlog2 & _ & Hev2 & _).
  pose proof (stored_bytes_nonneg (lru c1)).
  pose proof (stored_bytes_nonneg dropped).
  assert (stored_bytes (lru c1) <= curSize c) as Hle.
  { rewrite H1, Hl, stored_bytes_app. lia. }
  rewrite Hs1, uint64_small in Hfit by lia.
  assert (simplelru.find key (lru c1) = None) as Hf1.
  { apply find_None_keys. apply find_None_keys in Hf.
    intros Hin. apply Hf. unfold simplelru.keys in *.
    rewrite Hl, fmap_app. apply elem_of_app. by left. }
  rewrite (remove_absent _ _ Hf1) in Hl2.
  eexists _, c2, (lru c1), dropped. split; [exact Hset|].
  split_and!; try done; try congruence.
  intros keep older Hk Hlen. specialize (Hmin keep older Hk Hlen).
  pose proof (stored_bytes_nonneg keep). pose proof (stored_bytes_nonneg older).
  assert (stored_bytes keep <= curSize c).
  { rewrite H1, Hk, stored_bytes_app. lia. }
  rewrite uint64_small in Hmin; lia.
Qed.

(** ** Fill, read the first item, insert one more *)

Lemma fill_read_insert name logger config h ttl
    now1 k1 v1 now2 k2 v2 rest nowg nowx kx vx ttlx c0 :
  let items := (now1, (k1, v1)) :: (now2, (k2, v2)) :: rest in
  NoDup (data_keys items ++ [kx]) →
  Forall (λ d, mem.len d.2.2 <= MaxItemSize config) items →
  data_bytes items = MaxSize config →
  0 < mem.len vx <= MaxItemSize config →
  mem.len v1 + mem.len vx <= MaxSize config →
  MaxSize config + MaxItemSize config < uint64_modulus →
  NewInMemoryCacheWithConfig name logger config = Some c0 →
  nowg <= now1 + ttl →
  ∃ h1 c1 b c2 h3 c3,
    Store items ttl (h, c0) = Some (h1, c1)
    ∧ simplelru.keys (lru c1) = rev (data_keys items)
    ∧ curSize c1 = maxSizeBytes c1
    ∧ get nowg k1 c1 = ((b, true), c2)
    ∧ set nowx kx vx ttlx (h1, c2) = Some (h3, c3)
    ∧ simplelru.find k2 (lru c3) = None
    ∧ is_Some (simplelru.find k1 (lru c3))
    ∧ is_Some (simplelru.find kx (lru c3)).
Proof.
  intros items Hnd Hall Hfull Hvx Hroom Hnw Hnew Hnowg.
  unfold NewInMemoryCacheWithConfig in Hnew.
  destruct (Z.gtb_spec (MaxItemSize config) (MaxSize config)); [done|].
  injection Hnew as Hc0.
  apply NoDup_app in Hnd as (Hnd & Hkx & _).
  assert (lru c0 = []) as Hl0 by (by subst c0).
  assert (curSize c0 = 0) as Hcur0 by (by subst c0).
  assert (maxSizeBytes c0 = MaxSize config) as Hmax0 by (by subst c0).
  assert (maxItemSizeBytes c0 = MaxItemSize config) as Hitem0 by (by subst c0).
  clear Hc0.
  assert (limits_ok c0) as Hlim0 by (split; lia).
  assert (no_wrap c0) as Hnw0 by (unfold no_wrap; lia).
  assert (accounted c0) as Hacc0.
  { split; rewrite ?Hl0, ?Hcur0; [done | lia | done | apply NoDup_nil_2]. }
  destruct (Store_fresh_keys items ttl h c0)
    as (h1 & c1 & Hst & Hk1 & Hc1 & Hlim1 & _ & _ & Hnew1).
  { by rewrite Hl0, app_nil_r. }
  { by rewrite Hitem0. }
  { lia. }
  { lia. }
  { lia. }
  destruct (Store_accounted items ttl h c0 Hlim0 Hnw0 Hacc0)
    as (h1' & c1' & Hst' & Hacc1 & _).
  rewrite Hst in Hst'. injection Hst' as <- <-.
  rewrite Hl0, app_nil_r in Hk1. rewrite Hcur0 in Hc1.
  (* the list after the fill: the rest, then item 2, then item 1 *)
  assert (simplelru.keys (lru c1) = rev (data_keys items)) as Hkeys1 by done.
  unfold data_keys in Hk1. simpl in Hk1.
  apply keys_snoc_inv in Hk1 as (l' & e1 & Hlru1 & Hk1).
  apply keys_snoc_inv in Hk1 as (l & e2 & -> & Hl).
  symmetry in Hl. unfold simplelru.keys in Hl.
  unfold data_keys in Hnd, Hkx. simpl in Hnd, Hkx.
  apply NoDup_cons in Hnd as (Hk1 & Hnd). apply NoDup_cons in Hnd as (Hk2 & Hnd).
  apply not_elem_of_cons in Hk1 as (Hk12 & Hk1).
  assert (k1 ∉ simplelru.keys l) as Hk1l.
  { unfold simplelru.keys. by rewrite <-Hl, elem_of_rev. }
  assert (k2 ∉ simplelru.keys l) as Hk2l.
  { unfold simplelru.keys. by rewrite <-Hl, elem_of_rev. }
  assert (kx ≠ k1) as Hkx1.
  { intros ->. eapply Hkx; apply list_elem_of_here. }
  assert (kx ≠ k2) as Hkx2.
  { intros ->. eapply Hkx; [|apply list_elem_of_here].
    apply list_elem_of_further, list_elem_of_here. }
  assert (kx ∉ simplelru.keys l) as Hkxl.
  { unfold simplelru.keys. rewrite <-Hl, elem_of_rev. intros Hin.
    eapply Hkx; [|apply list_elem_of_here].
    by do 2 apply list_elem_of_further. }
  assert (k1 ∉ simplelru.keys (l ++ [(k2, e2)])) as Hk1l2.
  { unfold simplelru.keys in *. rewrite fmap_app. simpl.
    rewrite not_elem_of_app, list_elem_of_singleton. done. }
  (* the entry of item 1 *)
  assert (simplelru.find k1 (lru c1) = Some e1) as Hf1.
  { rewrite Hlru1. by apply find_middle. }
  destruct (Hnew1 now1 k1 v1) as (e1' & Hf1' & Hexp1 & Hlen1);
    [apply list_elem_of_here|].
  rewrite Hf1 in Hf1'. injection Hf1' as <-.
  (* reading item 1 *)
  pose proof (get_hit nowg k1 c1 e1 Hf1 ltac:(lia)) as Hget.
  destruct (get_accounted nowg k1 c1) as (Hacc2 & Hlim2);
    [by eapply limits_ok_same | done |].
  rewrite Hget in Hacc2, Hlim2. simpl in Hacc2, Hlim2.
  rewrite Hlru1 in Hget, Hacc2.
  rewrite (remove_middle _ _ _ _ Hk1l2), app_nil_r in Hget, Hacc2.
  set (c2 := inc_hits _) in Hget, Hacc2, Hlim2.
  assert (lru c2 = ((k1, e1) :: l) ++ [(k2, e2)]) as Hlru2 by done.
  assert (curSize c2 = maxSizeBytes c2) as Hcur2.
  { destruct Hlim1 as (Hm1 & _). simpl. lia. }
  assert (maxSizeBytes c2 = MaxSize config) as Hmax2.
  { destruct Hlim1 as (Hm1 & _). simpl. lia. }
  assert (maxItemSizeBytes c2 = MaxItemSize config) as Hitem2.
  { destruct Hlim1 as (_ & Hi1 & _). simpl. lia. }
  clearbody c2.
  (* inserting one more *)
  assert (simplelru.find kx (lru c2) = None) as Hfx.
  { apply find_None_keys. rewrite Hlru2. unfold simplelru.keys in *.
    rewrite fmap_app. simpl.
    rewrite not_elem_of_cons, not_elem_of_app, list_elem_of_singleton. done. }
  destruct (set_evicts_oldest nowx kx vx ttlx h1 c2)
    as (h3 & c3 & kept & dropped & Hset & Hsplit & Hl3 & Hfit & Hmin & _).
  { split; lia. }
  { unfold no_wrap. lia. }
  { done. }
  { done. }
  { lia. }
  (* something is dropped, and the oldest entry is item 2 *)
  destruct (snoc_cases dropped) as [->|(dropped' & x & ->)].
  { rewrite app_nil_r in Hsplit. subst kept.
    destruct Hacc2 as [Hsum _ _ _]. lia. }
  rewrite Hlru2, app_assoc in Hsplit.
  apply app_inj_tail in Hsplit as (Hsplit & <-).
  (* item 1 is kept *)
  destruct kept as [|e kept].
  { specialize (Hmin [(k1, e1)] (l ++ [(k2, e2)]) Hlru2 ltac:(simpl; lia)).
    simpl in Hmin. unfold entry_size in Hmin. simpl in Hmin. lia. }
  simpl in Hsplit. injection Hsplit as <- Hkept.
  exists h1, c1, (data e1), c2, h3, c3. rewrite Hl3. simpl.
  rewrite String.eqb_refl.
  destruct (String.eqb_spec kx k2) as [?|_]; [done|].
  destruct (String.eqb_spec kx k1) as [?|_]; [done|].
  destruct (String.eqb_spec k1 k2) as [?|_]; [done|].
  rewrite String.eqb_refl.
  split_and!; try done.
  - destruct Hlim1 as (Hm1 & _). lia.
  - apply find_None_keys. intros Hin. apply Hk2l.
    unfold simplelru.keys in *. rewrite Hkept, fmap_app. apply elem_of_app.
    by left.
Qed.

(** ** The claims *)

(** C1. For every sequence of calls of [set], [get], [Store], [Fetch] and
    [reset] on a cache built by [NewInMemoryCacheWithConfig] (which grants
    [MaxItemSize <= MaxSize]) the run returns, and in the state it leaves
    [curSize] is the sum of [len(data)] over the entries held in the
    recency list and is at most [maxSizeBytes]. Every prefix of a run is a
    run, so this holds after each call; a [Store] is the run of its [set]s.
    The limits are [uint64] values, and the sum [curSize+size] that
    [ensureFits] and [set] compute is taken modulo [2^64]: the second
    hypothesis keeps it from wrapping around, which it could only do with
    [2^64] bytes held in slices. *)
Theorem curSize_is_stored_bytes_and_bounded name logger config ops h c0 :
  0 <= MaxItemSize config →
  MaxSize config + MaxItemSize config < uint64_modulus →
  NewInMemoryCacheWithConfig name logger config = Some c0 →
  ∃ h' c',
    run ops (h, c0) = Some (h', c')
    ∧ curSize c' = stored_bytes (lru c')
    ∧ curSize c' <= maxSizeBytes c'
    ∧ maxSizeBytes c' = MaxSize config.
Proof.
  intros Hitem Hnw Hnew. unfold NewInMemoryCacheWithConfig in Hnew.
  destruct (Z.gtb_spec (MaxItemSize config) (MaxSize config)); [done|].
  injection Hnew as Hc0.
  destruct (run_accounted ops h c0) as (h' & c' & Hrun & [H1 H2 _ _] & Hm & _);
    subst c0.
  - split; simpl; [exact Hitem | done | lia].
  - unfold no_wrap. simpl. exact Hnw.
  - split; simpl; [done | lia | done | apply NoDup_nil_2].
  - exists h', c'. simpl in Hm. by split_and!.
Qed.

Lemma curSize_is_stored_bytes_and_bounded_witness :
  0 <= MaxItemSize demo_config
  ∧ MaxSize demo_config + MaxItemSize demo_config < uint64_modulus
  ∧ NewInMemoryCacheWithConfig "demo" [] demo_config = Some demo_cache
  ∧ ∃ h' c',
      run (demo_ops ++ [OpGet 4 "a"; OpSet 5 "c" (mem.Slice 0 1 3) 0;
                        OpFetch [(6, "a"); (7, "c")]; OpReset])
        (demo_heap, demo_cache) = Some (h', c')
      ∧ curSize c' = stored_bytes (lru c')
      ∧ curSize c' <= maxSizeBytes c'
      ∧ maxSizeBytes c' = MaxSize demo_config.
Proof.
  split; [by compute|]. split; [by compute|]. split; [reflexivity|].
  apply (curSize_is_stored_bytes_and_bounded "demo" [] demo_config);
    [by compute | by compute | reflexivity].
Defined.

(** C2. (1) A [set] that stores a new key in a cache with sound accounting
    drops a suffix of the recency list, that is the least recently used
    entries and nothing above them, and as few as make room: the entries
    kept fit together with the new value, and no shorter suffix would have
    done; the eviction counter goes up by one per entry dropped and the
    reset branch is not taken (the log is unchanged). (2) A [get] that hits
    moves its key to the front of the list and keeps the order of the
    others. (3) After [Store] has put [N >= 2] items with distinct keys in
    a new cache, their sizes adding up to the budget, a [get] that reads
    item 1 and a [set] of one more item leave item 1 and the new item in
    the cache and drop item 2; the new item is not empty and fits beside
    item 1, as it does when all items have one size. *)
Theorem eviction_follows_recency :
  (∀ now key val ttl h c,
     limits_ok c → no_wrap c → accounted c →
     simplelru.find key (lru c) = None →
     mem.len val <= maxItemSizeBytes c →
     ∃ h' c' kept dropped,
       set now key val ttl (h, c) = Some (h', c')
       ∧ lru c = kept ++ dropped
       ∧ lru c' = (key, new_entry now val ttl h) :: kept
       ∧ stored_bytes kept + mem.len val <= maxSizeBytes c
       ∧ (∀ keep older, lru c = keep ++ older →
            (length kept < length keep)%nat →
            maxSizeBytes c < stored_bytes keep + mem.len val)
       ∧ evicted (metrics c') = evicted (metrics c) + Z.of_nat (length dropped)
       ∧ logger c' = logger c)
  ∧ (∀ now key c e,
       simplelru.find key (lru c) = Some e →
       now <= expiryTime e →
       ∃ c', get now key c = ((data e, true), c')
             ∧ lru c' = (key, e) :: simplelru.remove key (lru c))
  ∧ (∀ name logger config h ttl now1 k1 v1 now2 k2 v2 rest
       nowg nowx kx vx ttlx c0,
       let items := (now1, (k1, v1)) :: (now2, (k2, v2)) :: rest in
       NoDup (data_keys items ++ [kx]) →
       Forall (λ d, mem.len d.2.2 <= MaxItemSize config) items →
       data_bytes items = MaxSize config →
       0 < mem.len vx <= MaxItemSize config →
       mem.len v1 + mem.len vx <= MaxSize config →
       MaxSize config + MaxItemSize config < uint64_modulus →
       NewInMemoryCacheWithConfig name logger config = Some c0 →
       nowg <= now1 + ttl →
       ∃ h1 c1 b c2 h3 c3,
         Store items ttl (h, c0) = Some (h1, c1)
         ∧ simplelru.keys (lru c1) = rev (data_keys items)
         ∧ curSize c1 = maxSizeBytes c1
         ∧ get nowg k1 c1 = ((b, true), c2)
         ∧ set nowx kx vx ttlx (h1, c2) = Some (h3, c3)
         ∧ simplelru.find k2 (lru c3) = None
         ∧ is_Some (simplelru.find k1 (lru c3))
         ∧ is_Some (simplelru.find kx (lru c3))).
Proof.
  split_and!.
  - apply set_evicts_oldest.
  - intros now key c e Hf Hnow. rewrite (get_hit _ _ _ _ Hf Hnow). by eexists.
  - apply fill_read_insert.
Qed.

Lemma eviction_follows_recency_witness :
  (∃ h' c' kept dropped,
     set 5 "c" (mem.Slice 0 0 2) 10 demo_full = Some (h', c')
     ∧ lru demo_full.2 = kept ++ dropped
     ∧ lru c' = ("c", new_entry 5 (mem.Slice 0 0 2) 10 demo_full.1) :: kept
     ∧ stored_bytes kept + 2 <= 4
     ∧ (∀ keep older, lru demo_full.2 = keep ++ older →
          (length kept < length keep)%nat →
          4 < stored_bytes keep + 2)
     ∧ evicted (metrics c')
       = evicted (metrics demo_full.2) + Z.of_nat (length dropped)
     ∧ logger c' = logger demo_full.2)
  ∧ (∃ c', get 4 "a" demo_full.2 = ((mem.Slice 1 0 2, true), c')
           ∧ lru c' = ("a", {| data := mem.Slice 1 0 2; expiryTime := 11 |})
                      :: simplelru.remove "a" (lru demo_full.2))
  ∧ (∃ h1 c1 b c2 h3 c3,
       Store [(1, ("a", mem.Slice 0 0 2)); (3, ("b", mem.Slice 0 2 2))] 10
         (demo_heap, demo_cache) = Some (h1, c1)
       ∧ simplelru.keys (lru c1) = ["b"; "a"]
       ∧ curSize c1 = maxSizeBytes c1
       ∧ get 4 "a" c1 = ((b, true), c2)
       ∧ set 5 "c" (mem.Slice 0 1 2) 10 (h1, c2) = Some (h3, c3)
       ∧ simplelru.find "b" (lru c3) = None
       ∧ is_Some (simplelru.find "a" (lru c3))
       ∧ is_Some (simplelru.find "c" (lru c3))).
Proof.
  destruct eviction_follows_recency as (Hset & Hget & Hfill).
  split_and!.
  - apply (Hset 5 "c" (mem.Slice 0 0 2) 10 demo_full.1 demo_full.2).
    + split; by compute.
    + by compute.
    + split; simpl.
      * reflexivity.
      * by compute.
      * repeat constructor; by compute.
      * refine (bool_decide_unpack _ _). by vm_compute.
    + reflexivity.
    + by compute.
  - apply (Hget 4 "a" demo_full.2 {| data := mem.Slice 1 0 2; expiryTime := 11 |}).
    + reflexivity.
    + by compute.
  - apply (Hfill "demo" [] demo_config demo_heap 10
             1 "a" (mem.Slice 0 0 2) 3 "b" (mem.Slice 0 2 2) []
             4 5 "c" (mem.Slice 0 1 2) 10 demo_cache).
    + refine (bool_decide_unpack _ _). by vm_compute.
    + repeat constructor; by compute.
    + reflexivity.
    + by compute.
    + by compute.
    + by compute.
    + reflexivity.
    + lia.
Defined.

(** C3. When [key] is already in the cache, [set] stores nothing: the call
    returns with the heap as it was, [key] and every other key map to the
    entry (value slice and expiry time) they mapped to before, the list
    holds the same entries, no entry is added, dropped or resized, and
    [curSize], every counter and gauge, the log and the limits are
    unchanged. *)
Theorem set_existing_key_keeps_entry now key val ttl h c e :
  simplelru.find key (lru c) = Some e →
  ∃ c',
    set now key val ttl (h, c) = Some (h, c')
    ∧ simplelru.find key (lru c') = Some e
    ∧ (∀ k, simplelru.find k (lru c') = simplelru.find k (lru c))
    ∧ lru c' ≡ₚ lru c
    ∧ curSize c' = curSize c
    ∧ metrics c' = metrics c
    ∧ logger c' = logger c
    ∧ same_limits c c'.
Proof.
  intros Hf. rewrite (set_present _ _ _ _ _ _ _ Hf). eexists. split; [done|].
  simpl. rewrite String.eqb_refl. split_and!; try done.
  - intros k. destruct (String.eqb_spec key k) as [<-|Hne]; [done|].
    by apply find_remove_ne.
  - symmetry. by apply remove_perm.
Qed.

Lemma set_existing_key_keeps_entry_witness :
  ∃ c',
    set 20 "a" (mem.Slice 0 0 1) 100 demo_full = Some (demo_full.1, c')
    ∧ simplelru.find "a" (lru c')
      = Some {| data := mem.Slice 1 0 2; expiryTime := 11 |}
    ∧ (∀ k, simplelru.find k (lru c') = simplelru.find k (lru demo_full.2))
    ∧ lru c' ≡ₚ lru demo_full.2
    ∧ curSize c' = curSize demo_full.2
    ∧ metrics c' = metrics demo_full.2
    ∧ logger c' = logger demo_full.2
    ∧ same_limits demo_full.2 c'.
Proof.
  apply (set_existing_key_keeps_entry 20 "a" (mem.Slice 0 0 1) 100
           demo_full.1 demo_full.2).
  reflexivity.
Defined.

(** C4, as the code has it. A [set] of a new key whose value passes the
    size check returns and stores, under the key, an entry that shows the
    bytes of the value and expires at [now + ttl]. In every state in which
    the key still maps to that entry, the state right after the [set] among
    them, a [get] of the key returns the entry's bytes with [true] when its
    clock reading is at most [now + ttl]; when its reading is later it
    returns [(nil, false)], as it does once the entry is gone. With
    [ttl = 0] the next [get] therefore misses only if its reading is
    strictly later than the one [set] took; at an equal reading it still
    returns the value. *)
Theorem set_then_get_ttl now key val ttl h c :
  limits_ok c →
  simplelru.find key (lru c) = None →
  mem.len val <= maxItemSizeBytes c →
  mem.valid h val →
  ∃ h1 c1 e,
    set now key val ttl (h, c) = Some (h1, c1)
    ∧ simplelru.find key (lru c1) = Some e
    ∧ expiryTime e = now + ttl
    ∧ mem.read h1 (data e) = mem.read h val
    ∧ (∀ c' now', simplelru.find key (lru c') = Some e →
                  now' <= now + ttl →
                  (get now' key c').1 = (data e, true))
    ∧ (∀ c' now', simplelru.find key (lru c') = Some e
                  ∨ simplelru.find key (lru c') = None →
                  now + ttl < now' →
                  (get now' key c').1 = (mem.nil, false)).
Proof.
  intros Hlim Hf Hok Hv.
  destruct (set_stores now key val ttl h c Hlim Hf Hok)
    as (c0 & dropped & c1 & _ & _ & Hset & Hl & _).
  destruct (read_make_copy h val Hv) as (Hread & _).
  eexists _, c1, (new_entry now val ttl h). split; [exact Hset|].
  split_and!.
  - rewrite Hl. simpl. by rewrite String.eqb_refl.
  - done.
  - exact Hread.
  - intros c' now' Hf' Hnow. by rewrite (get_hit _ _ _ _ Hf' Hnow).
  - intros c' now' [Hf'|Hf'] Hnow.
    + by rewrite (get_expired _ _ _ _ Hf' Hnow).
    + by rewrite (get_miss _ _ _ Hf').
Qed.

Lemma set_then_get_ttl_witness :
  ∃ h1 c1 e,
    set 1 "k" (mem.Slice 0 1 2) 10 (demo_heap, demo_cache) = Some (h1, c1)
    ∧ simplelru.find "k" (lru c1) = Some e
    ∧ expiryTime e = 1 + 10
    ∧ mem.read h1 (data e) = mem.read demo_heap (mem.Slice 0 1 2)
    ∧ (∀ c' now', simplelru.find "k" (lru c') = Some e →
                  now' <= 1 + 10 →
                  (get now' "k" c').1 = (data e, true))
    ∧ (∀ c' now', simplelru.find "k" (lru c') = Some e
                  ∨ simplelru.find "k" (lru c') = None →
                  1 + 10 < now' →
                  (get now' "k" c').1 = (mem.nil, false)).
Proof.
  apply (set_then_get_ttl 1 "k" (mem.Slice 0 1 2) 10 demo_heap demo_cache).
  - split; by compute.
  - reflexivity.
  - by compute.
  - simpl. lia.
Defined.

(** C4 as stated fails for [ttl = 0]: stored at clock reading 1 with no
    time to live, the key is still returned by a [get] whose clock reading
    is 1 as well. *)
Lemma ttl_zero_next_get_hits :
  ∃ h1 c1 b,
    set 1 "k" (mem.Slice 0 1 2) 0 (demo_heap, demo_cache) = Some (h1, c1)
    ∧ (get 1 "k" c1).1 = (b, true)
    ∧ mem.read h1 b = [x02; x03].
Proof. by eexists _, _, _. Qed.

(** C5. A [get] of a key that is in the list with an expiry time before the
    current time returns [(nil, false)] and removes the entry: the key is
    no longer found, the other keys are as before, [curSize] is lower by
    the size of the entry's value, the eviction counter and the counter of
    hits on expired data each go up by one, and the hit counter does not
    move. The sizes are those of a cache whose [curSize] covers the entry. *)
Theorem get_expired_removes_entry now key c e :
  simplelru.find key (lru c) = Some e →
  expiryTime e < now →
  NoDup (simplelru.keys (lru c)) →
  mem.len (data e) <= curSize c < uint64_modulus →
  ∃ c',
    get now key c = ((mem.nil, false), c')
    ∧ lru c' = simplelru.remove key (lru c)
    ∧ simplelru.find key (lru c') = None
    ∧ (∀ k, k ≠ key → simplelru.find k (lru c') = simplelru.find k (lru c))
    ∧ curSize c' = curSize c - mem.len (data e)
    ∧ evicted (metrics c') = evicted (metrics c) + 1
    ∧ hitsExpired (metrics c') = hitsExpired (metrics c) + 1
    ∧ hits (metrics c') = hits (metrics c)
    ∧ requests (metrics c') = requests (metrics c) + 1
    ∧ current (metrics c') = current (metrics c) - 1
    ∧ currentSize (metrics c') = currentSize (metrics c) - mem.len (data e).
Proof.
  intros Hf Hexp Hnd Hcur. rewrite (get_expired _ _ _ _ Hf Hexp).
  eexists. split; [done|]. simpl. split_and!; try done.
  - by apply find_remove_eq.
  - intros k Hne. by apply find_remove_ne.
  - pose proof (len_nonneg (data e)). apply uint64_small. lia.
Qed.

Lemma get_expired_removes_entry_witness :
  ∃ c',
    get 12 "a" demo_full.2 = ((mem.nil, false), c')
    ∧ lru c' = simplelru.remove "a" (lru demo_full.2)
    ∧ simplelru.find "a" (lru c') = None
    ∧ (∀ k, k ≠ "a" →
            simplelru.find k (lru c') = simplelru.find k (lru demo_full.2))
    ∧ curSize c' = curSize demo_full.2 - 2
    ∧ evicted (metrics c') = evicted (metrics demo_full.2) + 1
    ∧ hitsExpired (metrics c') = hitsExpired (metrics demo_full.2) + 1
    ∧ hits (metrics c') = hits (metrics demo_full.2)
    ∧ requests (metrics c') = requests (metrics demo_full.2) + 1
    ∧ current (metrics c') = current (metrics demo_full.2) - 1
    ∧ currentSize (metrics c') = currentSize (metrics demo_full.2) - 2.
Proof.
  apply (get_expired_removes_entry 12 "a" demo_full.2
           {| data := mem.Slice 1 0 2; expiryTime := 11 |}).
  - reflexivity.
  - by compute.
  - refine (bool_decide_unpack _ _). by vm_compute.
  - by compute.
Defined.

(** C6. A [set] of a key that is not in the cache with a value longer than
    [maxItemSizeBytes] leaves the heap, the recency list (entries and
    order) and [curSize] as they were, adds and drops nothing, and
    increments the overflow counter by exactly one; the other counters and
    the gauges do not move. *)
Theorem set_oversized_changes_nothing now key val ttl h c :
  simplelru.find key (lru c) = None →
  maxItemSizeBytes c < mem.len val →
  ∃ c',
    set now key val ttl (h, c) = Some (h, c')
    ∧ lru c' = lru c
    ∧ curSize c' = curSize c
    ∧ overflow (metrics c') = overflow (metrics c) + 1
    ∧ evicted (metrics c') = evicted (metrics c)
    ∧ added (metrics c') = added (metrics c)
    ∧ current (metrics c') = current (metrics c)
    ∧ currentSize (metrics c') = currentSize (metrics c)
    ∧ totalCurrentSize (metrics c') = totalCurrentSize (metrics c)
    ∧ same_limits c c'.
Proof.
  intros Hf Hbig. rewrite (set_too_big _ _ _ _ _ _ Hf Hbig).
  eexists. split; [done|]. simpl. by split_and!.
Qed.

Lemma set_oversized_changes_nothing_witness :
  ∃ c',
    set 5 "c" (mem.Slice 0 0 4) 10 demo_full = Some (demo_full.1, c')
    ∧ lru c' = lru demo_full.2
    ∧ curSize c' = curSize demo_full.2
    ∧ overflow (metrics c') = overflow (metrics demo_full.2) + 1
    ∧ evicted (metrics c') = evicted (metrics demo_full.2)
    ∧ added (metrics c') = added (metrics demo_full.2)
    ∧ current (metrics c') = current (metrics demo_full.2)
    ∧ currentSize (metrics c') = currentSize (metrics demo_full.2)
    ∧ totalCurrentSize (metrics c') = totalCurrentSize (metrics demo_full.2)
    ∧ same_limits demo_full.2 c'.
Proof.
  apply (set_oversized_changes_nothing 5 "c" (mem.Slice 0 0 4) 10
           demo_full.1 demo_full.2).
  - reflexivity.
  - by compute.
Defined.

(** C7. In a cache whose item limit is within its total limit and whose
    [curSize] is the sum of the stored sizes, the loop of [ensureFits] stops
    for every item the size check lets through: one turn per stored entry
    is enough fuel, and more fuel gives the same state. No turn takes the
    reset branch, whatever the fuel, and the log gets no line. (That each
    stored size is within the item limit is not needed.) *)
Theorem ensureFits_loop_stops_without_reset size c :
  maxItemSizeBytes c <= maxSizeBytes c →
  maxSizeBytes c < uint64_modulus →
  curSize c = stored_bytes (lru c) →
  curSize c < uint64_modulus →
  0 <= size <= maxItemSizeBytes c →
  ∃ c',
    (∀ fuel, (length (lru c) <= fuel)%nat →
             ensureFits_loop fuel size c = Some c')
    ∧ ensureFits size c = Some (true, c')
    ∧ (∀ fuel, ensureFits_resets fuel size c = O)
    ∧ logger c' = logger c.
Proof.
  intros Hle Hmax Hsum Hcur Hsize.
  destruct (ensureFits_loop_spec (length (lru c)) size c)
    as (c' & dropped & Hloop & _ & _ & _ & _ & Hlog & _); try lia.
  exists c'. split_and!.
  - intros fuel Hfuel. by eapply ensureFits_loop_more.
  - unfold ensureFits.
    destruct (Z.gtb_spec size (maxItemSizeBytes c)); [lia|].
    rewrite (ensureFits_loop_more _ (S (S (length (lru c)))) _ _ _ Hloop); [done|lia].
  - intros fuel. apply ensureFits_resets_zero; (done || lia).
  - done.
Qed.

Lemma ensureFits_loop_stops_without_reset_witness :
  ∃ c',
    (∀ fuel, (length (lru demo_full.2) <= fuel)%nat →
             ensureFits_loop fuel 3 demo_full.2 = Some c')
    ∧ ensureFits 3 demo_full.2 = Some (true, c')
    ∧ (∀ fuel, ensureFits_resets fuel 3 demo_full.2 = O)
    ∧ logger c' = logger demo_full.2.
Proof.
  apply (ensureFits_loop_stops_without_reset 3 demo_full.2);
    by compute.
Defined.

(** C8, as the code has it. [set] stores a copy: the entry's slice points
    to an array allocated by the call and shows the bytes the caller's
    slice showed, and a later write through the caller's slice, or through
    any slice of an array that existed before the call, does not change
    what it shows. [get] returns the entry's own slice, not a copy: the
    slice returned is the one held in the recency list, a later [get]
    returns it again, and a write through it changes what it shows. *)
Theorem set_copies_get_shares now key val ttl h c now' :
  limits_ok c →
  simplelru.find key (lru c) = None →
  mem.len val <= maxItemSizeBytes c →
  mem.valid h val →
  now' <= now + ttl →
  ∃ h1 c1 b c2,
    set now key val ttl (h, c) = Some (h1, c1)
    ∧ get now' key c1 = ((b, true), c2)
    ∧ simplelru.find key (lru c2) = Some {| data := b; expiryTime := now + ttl |}
    ∧ mem.read h1 b = mem.read h val
    ∧ (∀ s i x h2, mem.valid h s → mem.store h1 s i x = Some h2 →
                   mem.read h2 b = mem.read h val)
    ∧ (∀ i x h2, mem.store h1 b i x = Some h2 →
                 mem.read h2 b = <[i := x]> (mem.read h val))
    ∧ (∀ now'', now'' <= now + ttl → (get now'' key c2).1 = (b, true)).
Proof.
  intros Hlim Hf Hok Hv Hnow.
  destruct (set_stores now key val ttl h c Hlim Hf Hok)
    as (c0 & dropped & c1 & _ & _ & Hset & Hl & _).
  destruct (read_make_copy h val Hv) as (Hread & Hvb & Hlen & Hold).
  assert (simplelru.find key (lru c1) = Some (new_entry now val ttl h)) as Hf1.
  { rewrite Hl. simpl. by rewrite String.eqb_refl. }
  eexists _, c1, _, _. split; [exact Hset|].
  split; [exact (get_hit _ _ _ _ Hf1 Hnow)|]. simpl.
  rewrite String.eqb_refl. split_and!; try done.
  - intros s i x h2 Hs Hst. rewrite <-Hread.
    destruct s as [|a o n]; [done|].
    eapply read_store_other; [exact Hst|].
    apply valid_lt in Hs. lia.
  - intros i x h2 Hst. rewrite <-Hread.
    by apply (read_store_same _ _ _ _ _ _ _ Hvb Hst).
  - intros now'' Hnow''. rewrite (get_hit _ _ _ (new_entry now val ttl h)); try done.
    simpl. by rewrite String.eqb_refl.
Qed.

Lemma set_copies_get_shares_witness :
  ∃ h1 c1 b c2,
    set 1 "k" (mem.Slice 0 1 2) 10 (demo_heap, demo_cache) = Some (h1, c1)
    ∧ get 2 "k" c1 = ((b, true), c2)
    ∧ simplelru.find "k" (lru c2) = Some {| data := b; expiryTime := 1 + 10 |}
    ∧ mem.read h1 b = mem.read demo_heap (mem.Slice 0 1 2)
    ∧ (∀ s i x h2, mem.valid demo_heap s → mem.store h1 s i x = Some h2 →
                   mem.read h2 b = mem.read demo_heap (mem.Slice 0 1 2))
    ∧ (∀ i x h2, mem.store h1 b i x = Some h2 →
                 mem.read h2 b = <[i := x]> (mem.read demo_heap (mem.Slice 0 1 2)))
    ∧ (∀ now'', now'' <= 1 + 10 → (get now'' "k" c2).1 = (b, true)).
Proof.
  apply (set_copies_get_shares 1 "k" (mem.Slice 0 1 2) 10 demo_heap demo_cache 2).
  - split; by compute.
  - reflexivity.
  - by compute.
  - simpl. lia.
  - by compute.
Defined.

(** C8 as stated fails for [get]: the caller overwrites the first byte of
    the slice that [get] returned, and the next [get] of the key shows the
    overwritten byte. *)
Lemma write_through_get_result_changes_cache :
  ∃ h1 c1 b c2 h2 c3,
    set 1 "k" (mem.Slice 0 1 2) 10 (demo_heap, demo_cache) = Some (h1, c1)
    ∧ get 2 "k" c1 = ((b, true), c2)
    ∧ mem.read h1 b = [x02; x03]
    ∧ mem.store h1 b 0 xff = Some h2
    ∧ get 3 "k" c2 = ((b, true), c3)
    ∧ mem.read h2 b = [xff; x03].
Proof. by eexists _, _, _, _, _, _. Qed.

(** C9. A [set] of a key that is already in the cache moves the key to the
    front of the recency list (its lookup is [lru.Get]) and stores nothing.
    This changes later evictions: from a cache holding "b" above "a", room
    for "c" is made by dropping "a"; after a [set] of "a" in between, it is
    made by dropping "b". *)
Theorem set_existing_key_promotes now key val ttl h c e :
  simplelru.find key (lru c) = Some e →
  (∃ c',
     set now key val ttl (h, c) = Some (h, c')
     ∧ lru c' = (key, e) :: simplelru.remove key (lru c))
  ∧ (∃ w1 w2,
       simplelru.keys (lru demo_full.2) = ["b"; "a"]
       ∧ run [OpSet 5 "c" (mem.Slice 0 0 2) 10] demo_full = Some w1
       ∧ simplelru.keys (lru w1.2) = ["c"; "b"]
       ∧ run [OpSet 4 "a" (mem.Slice 0 0 1) 10;
              OpSet 5 "c" (mem.Slice 0 0 2) 10] demo_full = Some w2
       ∧ simplelru.keys (lru w2.2) = ["c"; "a"]).
Proof.
  intros Hf. split.
  - rewrite (set_present _ _ _ _ _ _ _ Hf). by eexists.
  - by eexists _, _.
Qed.

Lemma set_existing_key_promotes_witness :
  (∃ c',
     set 4 "a" (mem.Slice 0 0 1) 10 demo_full = Some (demo_full.1, c')
     ∧ lru c' = ("a", {| data := mem.Slice 1 0 2; expiryTime := 11 |})
                :: simplelru.remove "a" (lru demo_full.2))
  ∧ (∃ w1 w2,
       simplelru.keys (lru demo_full.2) = ["b"; "a"]
       ∧ run [OpSet 5 "c" (mem.Slice 0 0 2) 10] demo_full = Some w1
       ∧ simplelru.keys (lru w1.2) = ["c"; "b"]
       ∧ run [OpSet 4 "a" (mem.Slice 0 0 1) 10;
              OpSet 5 "c" (mem.Slice 0 0 2) 10] demo_full = Some w2
       ∧ simplelru.keys (lru w2.2) = ["c"; "a"]).
Proof.
  apply (set_existing_key_promotes 4 "a" (mem.Slice 0 0 1) 10
           demo_full.1 demo_full.2).
  reflexivity.
Defined.

(** C10. A [set] of a key whose entry is in the cache but past its expiry
    time stores nothing: the key keeps the stale entry (value and past
    expiry time). A [get] of another key does not remove it. A [get] of
    the key reports a miss and removes the entry, and after that the same
    [set] stores the new value. *)
Theorem set_on_expired_key_is_noop now key val ttl h c e :
  limits_ok c →
  NoDup (simplelru.keys (lru c)) →
  simplelru.find key (lru c) = Some e →
  expiryTime e < now →
  mem.len val <= maxItemSizeBytes c →
  ∃ c1 c2 h3 c3,
    set now key val ttl (h, c) = Some (h, c1)
    ∧ simplelru.find key (lru c1) = Some e
    ∧ (∀ now' k, k ≠ key →
         simplelru.find key (lru (get now' k c1).2) = Some e)
    ∧ get now key c1 = ((mem.nil, false), c2)
    ∧ simplelru.find key (lru c2) = None
    ∧ set now key val ttl (h, c2) = Some (h3, c3)
    ∧ simplelru.find key (lru c3) = Some (new_entry now val ttl h).
Proof.
  intros Hlim Hnd Hf Hexp Hok.
  set (c1 := with_lru ((key, e) :: simplelru.remove key (lru c)) c).
  assert (simplelru.find key (lru c1) = Some e) as Hf1.
  { simpl. by rewrite String.eqb_refl. }
  pose proof (get_expired now key c1 e Hf1 Hexp) as Hget.
  set (c2 := onEvict _ _ _) in Hget.
  assert (simplelru.find key (lru c2) = None) as Hf2.
  { simpl. rewrite String.eqb_refl. by apply find_remove_eq. }
  assert (limits_ok c2) as Hlim2 by (by destruct Hlim).
  destruct (set_stores now key val ttl h c2 Hlim2 Hf2 Hok)
    as (c0 & dropped & c3 & _ & _ & Hset & Hl & _).
  exists c1, c2. eexists _, c3. split_and!; try done.
  - by apply set_present.
  - intros now' k Hne. by rewrite get_other_key.
  - rewrite Hl. simpl. by rewrite String.eqb_refl.
Qed.

Lemma set_on_expired_key_is_noop_witness :
  ∃ c1 c2 h3 c3,
    set 12 "a" (mem.Slice 0 0 1) 10 demo_full = Some (demo_full.1, c1)
    ∧ simplelru.find "a" (lru c1)
      = Some {| data := mem.Slice 1 0 2; expiryTime := 11 |}
    ∧ (∀ now' k, k ≠ "a" →
         simplelru.find "a" (lru (get now' k c1).2)
         = Some {| data := mem.Slice 1 0 2; expiryTime := 11 |})
    ∧ get 12 "a" c1 = ((mem.nil, false), c2)
    ∧ simplelru.find "a" (lru c2) = None
    ∧ set 12 "a" (mem.Slice 0 0 1) 10 (demo_full.1, c2) = Some (h3, c3)
    ∧ simplelru.find "a" (lru c3)
      = Some (new_entry 12 (mem.Slice 0 0 1) 10 demo_full.1).
Proof.
  apply (set_on_expired_key_is_noop 12 "a" (mem.Slice 0 0 1) 10
           demo_full.1 demo_full.2).
  - split; by compute.
  - refine (bool_decide_unpack _ _). by vm_compute.
  - reflexivity.
  - by compute.
  - by compute.
Defined.

(** ** Further properties: the metrics follow the contents *)

Lemma key_bytes_perm l1 l2 : l1 ≡ₚ l2 → key_bytes l1 = key_bytes l2.
Proof. induction 1; simpl; lia. Qed.

Lemma set_new_eq now key val ttl h c c1 :
  simplelru.find key (lru c) = None →
  mem.len val <= maxItemSizeBytes c →
  ensureFits_loop (S (S (length (lru c)))) (mem.len val) c = Some c1 →
  set now key val ttl (h, c) =
    Some (heap_after_add val h, after_add now key val ttl h c1).
Proof.
  intros H Hfit Hloop. unfold set, simplelru.Get, ensureFits. rewrite H.
  destruct (Z.gtb_spec (mem.len val) (maxItemSizeBytes c)); [lia|].
  by rewrite Hloop.
Qed.

Lemma tallied_evict c k v l' :
  tallied c → lru c ≡ₚ (k, v) :: l' →
  tallied (onEvict k v (with_lru l' c)).
Proof.
  intros [T1 T2 T3 T4 T5 T6 T7] Hp.
  pose proof (Permutation_length Hp) as Hlen.
  pose proof (stored_bytes_perm _ _ Hp) as Hs.
  pose proof (key_bytes_perm _ _ Hp) as Hk.
  simpl in Hlen, Hs, Hk. unfold entry_size in Hs. simpl in Hs.
  unfold simplelru.keys in T6. rewrite Hp in T6, T7.
  apply NoDup_cons in T6 as (_ & T6). apply Forall_cons in T7 as (_ & T7).
  split; simpl; try done; lia.
Qed.

Lemma tallied_reorder c l (m : Metrics) :
  tallied c → l ≡ₚ lru c →
  current m = current (metrics c) →
  currentSize m = currentSize (metrics c) →
  totalCurrentSize m = totalCurrentSize (metrics c) →
  added m - evicted m = added (metrics c) - evicted (metrics c) →
  hits m + hitsExpired m <= requests m →
  tallied (with_metrics m (with_lru l c)).
Proof.
  intros [T1 T2 T3 T4 T5 T6 T7] Hp E1 E2 E3 E4 E5.
  pose proof (Permutation_length Hp) as Hlen.
  pose proof (stored_bytes_perm _ _ Hp) as Hs.
  pose proof (key_bytes_perm _ _ Hp) as Hk.
  split; simpl; rewrite ?E1, ?E2, ?E3, ?E4, ?Hlen, ?Hs, ?Hk; try done.
  - unfold simplelru.keys in *. by rewrite Hp.
  - by rewrite Hp.
Qed.

Lemma get_tallied now key c :
  tallied c → tallied (get now key c).2 ∧ same_limits c (get now key c).2.
Proof.
  intros Ht. destruct (simplelru.find key (lru c)) as [v|] eqn:Hf.
  - pose proof (remove_perm _ _ _ Hf) as Hp.
    destruct (Z.le_gt_cases now (expiryTime v)) as [Hle|Hgt].
    + rewrite (get_hit _ _ _ _ Hf Hle). simpl. split; [|done].
      apply (tallied_reorder c ((key, v) :: simplelru.remove key (lru c)));
        simpl; try done. destruct Ht. lia.
    + rewrite (get_expired _ _ _ _ Hf) by lia. simpl. split; [|done].
      apply (tallied_evict (inc_hitsExpired (inc_requests c))); [|done].
      apply (tallied_reorder c (lru c)); simpl; try done. destruct Ht. lia.
  - rewrite (get_miss _ _ _ Hf). simpl. split; [|done].
    apply (tallied_reorder c (lru c)); simpl; try done. destruct Ht. lia.
Qed.

Lemma fold_onEvict_counters dropped c :
  let c' := fold_left (fun c e => onEvict e.1 e.2 c) dropped c in
  evicted (metrics c') = evicted (metrics c) + Z.of_nat (length dropped)
  ∧ added (metrics c') = added (metrics c)
  ∧ requests (metrics c') = requests (metrics c)
  ∧ hits (metrics c') = hits (metrics c)
  ∧ hitsExpired (metrics c') = hitsExpired (metrics c)
  ∧ overflow (metrics c') = overflow (metrics c).
Proof.
  revert c. induction dropped as [|e dropped IH]; intros c; simpl.
  - split_and!; try done; lia.
  - destruct (IH (onEvict e.1 e.2 c)) as (H1 & H2 & H3 & H4 & H5 & H6).
    simpl in *. split_and!; try done; lia.
Qed.

Lemma reset_counters c :
  evicted (metrics (reset c))
  = evicted (metrics c) + Z.of_nat (length (lru c))
  ∧ added (metrics (reset c)) = added (metrics c)
  ∧ requests (metrics (reset c)) = requests (metrics c)
  ∧ hits (metrics (reset c)) = hits (metrics c)
  ∧ hitsExpired (metrics (reset c)) = hitsExpired (metrics c)
  ∧ overflow (metrics (reset c)) = overflow (metrics c).
Proof.
  unfold reset, lru_Purge. simpl.
  apply (fold_onEvict_counters (lru c) (with_lru [] c)).
Qed.

Lemma reset_tallied c : tallied c → tallied (reset c).
Proof.
  intros [T1 T2 T3 T4 T5 T6 T7].
  destruct (reset_counters c) as (H1 & H2 & H3 & H4 & H5 & _).
  split; rewrite ?reset_lru; simpl; try done.
  - change (added (metrics (reset c)) - evicted (metrics (reset c)) = 0).
    lia.
  - change (hits (metrics (reset c)) + hitsExpired (metrics (reset c))
            <= requests (metrics (reset c))).
    lia.
  - apply NoDup_nil_2.
Qed.

Lemma tallied_log e c : tallied c → tallied (log e c).
Proof. by intros [T1 T2 T3 T4 T5 T6 T7]. Qed.

Lemma ensureFits_loop_tallied fuel size c c' :
  tallied c → ensureFits_loop fuel size c = Some c' → tallied c'.
Proof.
  revert c. induction fuel as [|fuel IH]; intros c Ht.
  - rewrite ensureFits_loop_O. destruct (_ >? _); [done|]. by intros [= <-].
  - rewrite ensureFits_loop_S. destruct (_ >? _); [|by intros [= <-]].
    destruct (snoc_cases (lru c)) as [Hnil|(l & [k v] & Hl)].
    + rewrite (lru_RemoveOldest_nil _ Hnil). apply IH.
      by apply reset_tallied, tallied_log.
    + rewrite (lru_RemoveOldest_snoc _ _ _ _ Hl). apply IH.
      apply tallied_evict; [done|]. rewrite Hl.
      symmetry. apply Permutation_cons_append.
Qed.

Lemma set_tallied now key val ttl h c :
  limits_ok c → tallied c →
  ∃ h' c', set now key val ttl (h, c) = Some (h', c')
           ∧ tallied c' ∧ same_limits c c'.
Proof.
  intros Hlim Ht.
  destruct (simplelru.find key (lru c)) as [v|] eqn:Hf.
  { rewrite (set_present _ _ _ _ _ _ _ Hf). do 2 eexists. split; [done|].
    split; [|done].
    apply (tallied_reorder c _ (metrics c)); try done.
    - symmetry. by apply remove_perm.
    - by destruct Ht. }
  destruct (Z.lt_ge_cases (maxItemSizeBytes c) (mem.len val)) as [Hbig|Hok].
  { rewrite (set_too_big _ _ _ _ _ _ Hf Hbig). do 2 eexists. split; [done|].
    split; [|done].
    apply (tallied_reorder (log _ c) (lru c)); simpl; try done.
    - by apply tallied_log.
    - by destruct Ht. }
  destruct Hlim as [L1 L2 L3]. pose proof (len_nonneg val) as Hv0.
  destruct (ensureFits_loop_total (S (S (length (lru c)))) (mem.len val) c)
    as (c1 & dropped & Hloop & Hl & Hlim1); try lia.
  rewrite (set_new_eq now key val ttl h c c1 Hf Hok Hloop).
  do 2 eexists. split; [done|].
  pose proof (ensureFits_loop_tallied _ _ _ _ Ht Hloop) as [T1 T2 T3 T4 T5 T6 T7].
  assert (simplelru.find key (lru c1) = None) as Hf1.
  { apply find_None_keys. apply find_None_keys in Hf.
    intros Hin. apply Hf. unfold simplelru.keys in *.
    rewrite Hl, fmap_app. apply elem_of_app. by left. }
  destruct Hlim1 as (Hm & Hi & Hn).
  split; [|by split_and!].
  split; simpl; rewrite ?(remove_absent _ _ Hf1); simpl;
    unfold entry_size; simpl; fold entry_size; rewrite <-?len_nlen; try lia.
  - apply NoDup_cons. split; [|done]. by apply find_None_keys in Hf1.
  - unfold simplelru.Add. rewrite (remove_absent _ _ Hf1).
    apply Forall_cons. split; [|done].
    simpl. rewrite <-len_nlen. lia.
Qed.

Lemma Store_tallied data ttl h c :
  limits_ok c → tallied c →
  ∃ h' c', Store data ttl (h, c) = Some (h', c')
           ∧ tallied c' ∧ same_limits c c'.
Proof.
  revert h c. induction data as [|(now & key & val) data IH];
    intros h c Hlim Ht.
  - by exists h, c.
  - rewrite Store_cons.
    destruct (set_tallied now key val ttl h c) as (h1 & c1 & -> & Ht1 & Hs1);
      try done.
    destruct (IH h1 c1) as (h2 & c2 & Hr & Ht2 & Hs2);
      eauto using limits_ok_same.
    exists h2, c2. eauto using same_limits_trans.
Qed.

Lemma Fetch_loop_tallied keys results c :
  tallied c →
  tallied (Fetch_loop keys results c).2
  ∧ same_limits c (Fetch_loop keys results c).2.
Proof.
  revert results c. induction keys as [|(now & key) keys IH];
    intros results c Ht; [done|].
  rewrite Fetch_loop_cons.
  destruct (get_tallied now key c Ht) as (Ht1 & Hs).
  edestruct IH as (Ht2 & Hs2); [done|].
  eauto using same_limits_trans.
Qed.

Lemma run_tallied ops h c :
  limits_ok c → tallied c →
  ∃ h' c', run ops (h, c) = Some (h', c') ∧ tallied c' ∧ same_limits c c'.
Proof.
  revert h c. induction ops as [|o ops IH]; intros h c Hlim Ht.
  - by exists h, c.
  - rewrite run_cons.
    assert (∃ h1 c1, step o (h, c) = Some (h1, c1)
                     ∧ tallied c1 ∧ same_limits c c1)
      as (h1 & c1 & -> & Ht1 & Hs1).
    { destruct o as [now key|now key val ttl|data ttl|keys|];
        unfold step; cbn [fst snd].
      - destruct (get_tallied now key c Ht). eauto.
      - by apply set_tallied.
      - by apply Store_tallied.
      - destruct (Fetch_loop_tallied keys ∅ c Ht). unfold Fetch. eauto.
      - do 2 eexists. split; [done|]. split.
        + by apply reset_tallied.
        + apply reset_same_limits. }
    destruct (IH h1 c1) as (h2 & c2 & Hr & Ht2 & Hs2);
      eauto using limits_ok_same.
    exists h2, c2. eauto using same_limits_trans.
Qed.

Lemma new_cache_tallied nm logger config c0 :
  0 <= MaxItemSize config →
  MaxSize config < uint64_modulus →
  NewInMemoryCacheWithConfig nm logger config = Some c0 →
  limits_ok c0 ∧ tallied c0
  ∧ maxSizeBytes c0 = MaxSize config
  ∧ maxItemSizeBytes c0 = MaxItemSize config
  ∧ name c0 = nm.
Proof.
  intros H0 Hmax Hnew. unfold NewInMemoryCacheWithConfig in Hnew.
  destruct (Z.gtb_spec (MaxItemSize config) (MaxSize config)); [done|].
  injection Hnew as <-. split_and!; try done.
  split; simpl; try done. apply NoDup_nil_2.
Qed.

(** X1. On a cache built by [NewInMemoryCacheWithConfig], after every
    sequence of calls the gauges agree with what is held: the item gauge is
    the number of entries, the size gauge the sum of the value lengths, the
    total-size gauge that sum plus the sum of the key lengths; the entries
    held are those added and not yet evicted; and hits, expired hits
    included, never outnumber requests. The limits only have to be [uint64]
    values: this holds even where [curSize] wraps around. *)
Theorem gauges_follow_contents name logger config ops h c0 :
  0 <= MaxItemSize config →
  MaxSize config < uint64_modulus →
  NewInMemoryCacheWithConfig name logger config = Some c0 →
  ∃ h' c',
    run ops (h, c0) = Some (h', c')
    ∧ current (metrics c') = Z.of_nat (length (lru c'))
    ∧ currentSize (metrics c') = stored_bytes (lru c')
    ∧ totalCurrentSize (metrics c') = stored_bytes (lru c') + key_bytes (lru c')
    ∧ added (metrics c') - evicted (metrics c') = Z.of_nat (length (lru c'))
    ∧ hits (metrics c') + hitsExpired (metrics c') <= requests (metrics c').
Proof.
  intros H0 Hmax Hnew.
  destruct (new_cache_tallied _ _ _ _ H0 Hmax Hnew) as (Hlim & Ht & _).
  destruct (run_tallied ops h c0 Hlim Ht) as (h' & c' & Hrun & [] & _).
  exists h', c'. by split_and!.
Qed.

Lemma gauges_follow_contents_witness :
  ∃ h' c',
    run (demo_ops ++ [OpGet 12 "a"; OpSet 13 "c" (mem.Slice 0 1 3) 0;
                      OpFetch [(14, "b"); (15, "c")]])
      (demo_heap, demo_cache) = Some (h', c')
    ∧ current (metrics c') = Z.of_nat (length (lru c'))
    ∧ currentSize (metrics c') = stored_bytes (lru c')
    ∧ totalCurrentSize (metrics c') = stored_bytes (lru c') + key_bytes (lru c')
    ∧ added (metrics c') - evicted (metrics c') = Z.of_nat (length (lru c'))
    ∧ hits (metrics c') + hitsExpired (metrics c') <= requests (metrics c').
Proof.
  apply (gauges_follow_contents "demo" [] demo_config);
    [by compute | by compute | reflexivity].
Defined.

(** X2. On a cache built by [NewInMemoryCacheWithConfig], after every
    sequence of calls no key is held twice and no value held is longer
    than the item limit of the configuration. *)
Theorem keys_unique_and_items_within_limit name logger config ops h c0 :
  0 <= MaxItemSize config →
  MaxSize config < uint64_modulus →
  NewInMemoryCacheWithConfig name logger config = Some c0 →
  ∃ h' c',
    run ops (h, c0) = Some (h', c')
    ∧ NoDup (simplelru.keys (lru c'))
    ∧ Forall (λ e, mem.len (data e.2) <= MaxItemSize config) (lru c').
Proof.
  intros H0 Hmax Hnew.
  destruct (new_cache_tallied _ _ _ _ H0 Hmax Hnew)
    as (Hlim & Ht & _ & Hi & _).
  destruct (run_tallied ops h c0 Hlim Ht)
    as (h' & c' & Hrun & [_ _ _ _ _ T6 T7] & _ & Hi' & _).
  exists h', c'. rewrite Hi', Hi in T7. by split_and!.
Qed.

Lemma keys_unique_and_items_within_limit_witness :
  ∃ h' c',
    run (demo_ops ++ [OpSet 5 "a" (mem.Slice 0 0 1) 10;
                      OpSet 6 "c" (mem.Slice 0 0 4) 10;
                      OpSet 7 "d" (mem.Slice 0 1 3) 10])
      (demo_heap, demo_cache) = Some (h', c')
    ∧ NoDup (simplelru.keys (lru c'))
    ∧ Forall (λ e, mem.len (data e.2) <= MaxItemSize demo_config) (lru c').
Proof.
  apply (keys_unique_and_items_within_limit "demo" [] demo_config);
    [by compute | by compute | reflexivity].
Defined.

(** X3. No method assigns the limits or the name: on a cache built by
    [NewInMemoryCacheWithConfig] every sequence of calls returns, whatever
    the values and keys, and afterwards [Name] still returns the name given
    to the constructor and both limits are those of the configuration. *)
Theorem name_and_limits_never_change name logger config ops h c0 :
  0 <= MaxItemSize config →
  MaxSize config < uint64_modulus →
  NewInMemoryCacheWithConfig name logger config = Some c0 →
  ∃ h' c',
    run ops (h, c0) = Some (h', c')
    ∧ Name c' = name
    ∧ maxSizeBytes c' = MaxSize config
    ∧ maxItemSizeBytes c' = MaxItemSize config.
Proof.
  intros H0 Hmax Hnew.
  destruct (new_cache_tallied _ _ _ _ H0 Hmax Hnew)
    as (Hlim & Ht & Hm & Hi & Hn).
  destruct (run_tallied ops h c0 Hlim Ht)
    as (h' & c' & Hrun & _ & Hm' & Hi' & Hn').
  exists h', c'. unfold Name. split_and!; congruence.
Qed.

Lemma name_and_limits_never_change_witness :
  ∃ h' c',
    run (demo_ops ++ [OpReset; OpSet 5 "a" (mem.Slice 0 0 1) 10])
      (demo_heap, demo_cache) = Some (h', c')
    ∧ Name c' = "demo"
    ∧ maxSizeBytes c' = MaxSize demo_config
    ∧ maxItemSizeBytes c' = MaxItemSize demo_config.
Proof.
  apply (name_and_limits_never_change "demo" [] demo_config);
    [by compute | by compute | reflexivity].
Defined.

(** ** Further properties: [get] and [Fetch] *)

Lemma get_true_inv now key c b c' :
  get now key c = ((b, true), c') →
  ∃ e, simplelru.find key (lru c) = Some e
       ∧ data e = b ∧ now <= expiryTime e.
Proof.
  destruct (simplelru.find key (lru c)) as [v|] eqn:Hf.
  - destruct (Z.le_gt_cases now (expiryTime v)) as [Hle|Hgt].
    + rewrite (get_hit _ _ _ _ Hf Hle). intros [= <- <-]. by exists v.
    + by rewrite (get_expired _ _ _ _ Hf) by lia.
  - by rewrite (get_miss _ _ _ Hf).
Qed.

(** [get] adds no entry and changes none. *)
Lemma get_find_inv now key c k e :
  NoDup (simplelru.keys (lru c)) →
  simplelru.find k (lru (get now key c).2) = Some e →
  simplelru.find k (lru c) = Some e.
Proof.
  intros Hnd. destruct (decide (key = k)) as [<-|Hne].
  2:{ by rewrite get_other_key. }
  destruct (simplelru.find key (lru c)) as [v|] eqn:Hf.
  - destruct (Z.le_gt_cases now (expiryTime v)) as [Hle|Hgt].
    + rewrite (get_hit _ _ _ _ Hf Hle). simpl. by rewrite String.eqb_refl.
    + rewrite (get_expired _ _ _ _ Hf) by lia. simpl.
      by rewrite find_remove_eq.
  - rewrite (get_miss _ _ _ Hf). simpl. congruence.
Qed.

Lemma get_NoDup now key c :
  NoDup (simplelru.keys (lru c)) →
  NoDup (simplelru.keys (lru (get now key c).2)).
Proof.
  intros Hnd. destruct (simplelru.find key (lru c)) as [v|] eqn:Hf.
  - destruct (Z.le_gt_cases now (expiryTime v)) as [Hle|Hgt].
    + rewrite (get_hit _ _ _ _ Hf Hle).
      change (NoDup (((key, v) :: simplelru.remove key (lru c)).*1)).
      unfold simplelru.keys in *. by rewrite <-(remove_perm _ _ _ Hf).
    + rewrite (get_expired _ _ _ _ Hf) by lia. simpl.
      by apply NoDup_keys_remove.
  - by rewrite (get_miss _ _ _ Hf).
Qed.

Lemma Fetch_loop_sound keys results c k b :
  NoDup (simplelru.keys (lru c)) →
  (Fetch_loop keys results c).1 !! k = Some b →
  results !! k = Some b
  ∨ ∃ now e, (now, k) ∈ keys
             ∧ simplelru.find k (lru c) = Some e
             ∧ data e = b ∧ now <= expiryTime e.
Proof.
  revert results c. induction keys as [|(now0 & key0) keys IH];
    intros results c Hnd; [by left|].
  rewrite Fetch_loop_cons. intros Hres.
  apply IH in Hres; [|by apply get_NoDup].
  destruct Hres as [Hres|(now & e & Hin & Hf & Hb & Hnow)].
  - destruct (get now0 key0 c) as [[b0 ok] c1] eqn:Hget. simpl in Hres.
    destruct ok; [|by left].
    destruct (decide (key0 = k)) as [->|Hne].
    + rewrite lookup_insert_eq in Hres. injection Hres as ->.
      apply get_true_inv in Hget as (e & Hf & Hb & Hnow).
      right. exists now0, e. split_and!; try done. apply list_elem_of_here.
    + rewrite lookup_insert_ne in Hres by done. by left.
  - right. exists now, e. split_and!; try done.
    + by apply list_elem_of_further.
    + by eapply get_find_inv.
Qed.

Lemma Fetch_loop_complete keys results c k e :
  simplelru.find k (lru c) = Some e →
  (∀ now, (now, k) ∈ keys → now <= expiryTime e) →
  k ∈ keys.*2 ∨ results !! k = Some (data e) →
  (Fetch_loop keys results c).1 !! k = Some (data e).
Proof.
  revert results c. induction keys as [|(now0 & key0) keys IH];
    intros results c Hf Hnow Hin.
  { destruct Hin as [Hin|Hin]; [by apply elem_of_nil in Hin | done]. }
  rewrite Fetch_loop_cons.
  assert (∀ now, (now, k) ∈ keys → now <= expiryTime e) as Hnow'.
  { intros now Hn. by apply Hnow, list_elem_of_further. }
  destruct (decide (key0 = k)) as [->|Hne].
  - rewrite (get_hit now0 k c e Hf) by apply Hnow, list_elem_of_here.
    simpl. apply IH; [|done|].
    + simpl. by rewrite String.eqb_refl.
    + right. apply lookup_insert_eq.
  - apply IH; [by rewrite get_other_key | done |].
    destruct Hin as [Hin|Hin].
    + left. simpl in Hin. apply elem_of_cons in Hin as [?|?]; [congruence|done].
    + right. destruct ((get now0 key0 c).1.2); [|done].
      by rewrite lookup_insert_ne.
Qed.

(** X4. [Fetch] returns nothing but live entries of the cache: a key is in
    the result only if it was asked for, was held before the call and was
    not past its expiry time at the clock reading of one of its lookups,
    and it is returned with the slice that was stored under it. So a key
    that is not held, or not asked for, or expired at each of its lookups,
    is missing from the result. *)
Theorem Fetch_returns_only_live_entries keys c k b :
  NoDup (simplelru.keys (lru c)) →
  (Fetch keys c).1 !! k = Some b →
  ∃ now e, (now, k) ∈ keys
           ∧ simplelru.find k (lru c) = Some e
           ∧ data e = b
           ∧ now <= expiryTime e.
Proof.
  intros Hnd Hres. unfold Fetch in Hres.
  apply Fetch_loop_sound in Hres as [Hres|Hres]; [|done|done].
  by rewrite lookup_empty in Hres.
Qed.

Lemma Fetch_returns_only_live_entries_witness :
  ∃ now e, (now, "b") ∈ [(12, "a"); (12, "b"); (12, "z")]
           ∧ simplelru.find "b" (lru demo_full.2) = Some e
           ∧ data e = mem.Slice 2 0 2
           ∧ now <= expiryTime e.
Proof.
  apply (Fetch_returns_only_live_entries
           [(12, "a"); (12, "b"); (12, "z")] demo_full.2 "b" (mem.Slice 2 0 2)).
  - refine (bool_decide_unpack _ _). by vm_compute.
  - by vm_compute.
Defined.

(** X5. [Fetch] returns every live entry it is asked for: a key of the list
    that is held, and is not past its expiry time at any of the clock
    readings of its lookups, is in the result with the slice stored under
    it, whatever the other keys of the list are and wherever it stands
    among them. *)
Theorem Fetch_returns_every_live_entry keys c k e :
  simplelru.find k (lru c) = Some e →
  k ∈ keys.*2 →
  (∀ now, (now, k) ∈ keys → now <= expiryTime e) →
  (Fetch keys c).1 !! k = Some (data e).
Proof.
  intros Hf Hin Hnow. apply Fetch_loop_complete; auto.
Qed.

Lemma Fetch_returns_every_live_entry_witness :
  (Fetch [(12, "a"); (12, "b"); (12, "z"); (13, "b")] demo_full.2).1 !! "b"
  = Some (mem.Slice 2 0 2).
Proof.
  apply (Fetch_returns_every_live_entry
           [(12, "a"); (12, "b"); (12, "z"); (13, "b")] demo_full.2 "b"
           {| data := mem.Slice 2 0 2; expiryTime := 13 |}).
  - reflexivity.
  - simpl. rewrite !elem_of_cons. auto.
  - intros now Hin. simpl.
    rewrite !elem_of_cons, elem_of_nil in Hin.
    destruct Hin as [[= ->]|[[= ->]|[[=]|[[= ->]|[]]]]]; lia.
Defined.

Lemma get_counters now key c :
  requests (metrics (get now key c).2) = requests (metrics c) + 1
  ∧ added (metrics (get now key c).2) = added (metrics c)
  ∧ overflow (metrics (get now key c).2) = overflow (metrics c)
  ∧ logger (get now key c).2 = logger c.
Proof.
  destruct (simplelru.find key (lru c)) as [v|] eqn:Hf.
  - destruct (Z.le_gt_cases now (expiryTime v)) as [Hle|Hgt].
    + by rewrite (get_hit _ _ _ _ Hf Hle).
    + by rewrite (get_expired _ _ _ _ Hf) by lia.
  - by rewrite (get_miss _ _ _ Hf).
Qed.

Lemma Fetch_loop_frame keys results c :
  NoDup (simplelru.keys (lru c)) →
  let c' := (Fetch_loop keys results c).2 in
  requests (metrics c') = requests (metrics c) + Z.of_nat (length keys)
  ∧ added (metrics c') = added (metrics c)
  ∧ overflow (metrics c') = overflow (metrics c)
  ∧ logger c' = logger c
  ∧ (∀ k e, simplelru.find k (lru c') = Some e →
            simplelru.find k (lru c) = Some e).
Proof.
  revert results c. induction keys as [|(now & key) keys IH];
    intros results c Hnd.
  { simpl. split_and!; try done. lia. }
  rewrite Fetch_loop_cons.
  destruct (get_counters now key c) as (G1 & G2 & G3 & G4).
  edestruct IH as (H1 & H2 & H3 & H4 & H5); [by apply get_NoDup|].
  cbn zeta. rewrite H1, H2, H3, H4, G1, G2, G3, G4.
  split_and!; try done.
  - rewrite length_cons. lia.
  - intros k e Hk. eapply get_find_inv; [done|]. by apply H5.
Qed.

(** X6. [Fetch] only reads: it counts one request per key of the list,
    stores nothing and rejects nothing (the counters of additions and of
    overflows and the log are unchanged), and every key it leaves in the
    cache was there before with the same entry. *)
Theorem Fetch_adds_nothing keys c :
  NoDup (simplelru.keys (lru c)) →
  requests (metrics (Fetch keys c).2)
  = requests (metrics c) + Z.of_nat (length keys)
  ∧ added (metrics (Fetch keys c).2) = added (metrics c)
  ∧ overflow (metrics (Fetch keys c).2) = overflow (metrics c)
  ∧ logger (Fetch keys c).2 = logger c
  ∧ (∀ k e, simplelru.find k (lru (Fetch keys c).2) = Some e →
            simplelru.find k (lru c) = Some e).
Proof. intros Hnd. by apply (Fetch_loop_frame keys ∅ c). Qed.

Lemma Fetch_adds_nothing_witness :
  requests (metrics (Fetch [(12, "a"); (12, "b"); (12, "z")] demo_full.2).2)
  = requests (metrics demo_full.2) + 3
  ∧ added (metrics (Fetch [(12, "a"); (12, "b"); (12, "z")] demo_full.2).2)
    = added (metrics demo_full.2)
  ∧ overflow (metrics (Fetch [(12, "a"); (12, "b"); (12, "z")] demo_full.2).2)
    = overflow (metrics demo_full.2)
  ∧ logger (Fetch [(12, "a"); (12, "b"); (12, "z")] demo_full.2).2
    = logger demo_full.2
  ∧ (∀ k e,
       simplelru.find k
         (lru (Fetch [(12, "a"); (12, "b"); (12, "z")] demo_full.2).2) = Some e →
       simplelru.find k (lru demo_full.2) = Some e).
Proof.
  apply (Fetch_adds_nothing [(12, "a"); (12, "b"); (12, "z")] demo_full.2).
  refine (bool_decide_unpack _ _). by vm_compute.
Defined.

(** ** Further properties: [reset] and the fallback of [ensureFits] *)

Lemma reset_logger c : logger (reset c) = logger c.
Proof.
  unfold reset, lru_Purge. simpl.
  by destruct (fold_onEvict_frame (lru c) (with_lru [] c)) as (_ & _ & ->).
Qed.

(** X7. [reset] empties the cache: afterwards nothing is held, [curSize]
    and the three gauges are zero, every [get] misses, one eviction has
    been counted for each entry that was held, and the limits, the name,
    the log and the counter of additions are as before. *)
Theorem reset_empties_cache c :
  lru (reset c) = []
  ∧ curSize (reset c) = 0
  ∧ current (metrics (reset c)) = 0
  ∧ currentSize (metrics (reset c)) = 0
  ∧ totalCurrentSize (metrics (reset c)) = 0
  ∧ evicted (metrics (reset c))
    = evicted (metrics c) + Z.of_nat (length (lru c))
  ∧ added (metrics (reset c)) = added (metrics c)
  ∧ (∀ now key, (get now key (reset c)).1 = (mem.nil, false))
  ∧ same_limits c (reset c)
  ∧ logger (reset c) = logger c.
Proof.
  destruct (reset_counters c) as (H1 & H2 & _).
  split_and!; try done.
  - apply reset_lru.
  - intros now key. rewrite get_miss; [done|]. by rewrite reset_lru.
  - apply reset_same_limits.
  - apply reset_logger.
Qed.

Lemma ensureFits_loop_fits fuel size c :
  uint64 (curSize c + size) <= maxSizeBytes c →
  ensureFits_loop fuel size c = Some c.
Proof.
  intros H. destruct fuel; [rewrite ensureFits_loop_O | rewrite ensureFits_loop_S];
    by destruct (Z.gtb_spec (uint64 (curSize c + size)) (maxSizeBytes c));
      [lia|].
Qed.

Lemma ensureFits_loop_after_reset fuel size c c1 :
  0 <= size <= maxSizeBytes c →
  maxSizeBytes c < uint64_modulus →
  ensureFits_resets fuel size c ≠ O →
  ensureFits_loop fuel size c = Some c1 →
  lru c1 = [] ∧ curSize c1 = 0 ∧ same_limits c c1
  ∧ ∃ cur, logger c1
           = LogResetting (maxItemSizeBytes c) (maxSizeBytes c) cur size
             :: logger c.
Proof.
  revert c. induction fuel as [|fuel IH]; intros c Hsize Hmax; simpl;
    destruct (Z.gtb_spec (uint64 (curSize c + size)) (maxSizeBytes c)); try done.
  destruct (snoc_cases (lru c)) as [Hnil|(l & [k v] & Hl)].
  - rewrite (lru_RemoveOldest_nil _ Hnil). intros _.
    set (c0 := reset _).
    assert (same_limits c c0) as Hlim by apply (reset_same_limits (log _ c)).
    rewrite ensureFits_loop_fits.
    2:{ destruct Hlim as (-> & _). change (curSize c0) with 0.
        rewrite Z.add_0_l, uint64_small; lia. }
    intros [= <-]. split_and!; try done.
    + apply reset_lru.
    + eexists. unfold c0. by rewrite reset_logger.
  - rewrite (lru_RemoveOldest_snoc _ _ _ _ Hl). intros Hres Hloop.
    by apply (IH (onEvict k v (with_lru l c))).
Qed.

(** X8. The fallback of [ensureFits] repairs the accounting. When the item
    passes the size check but the loop runs out of entries to drop (which
    takes a [curSize] that no longer matches what is held), [set] logs the
    reset once and stores the item all the same: afterwards the new entry
    is the only one held and [curSize] is its length, so the byte
    accounting holds again. *)
Theorem reset_fallback_restores_accounting now key val ttl h c :
  limits_ok c →
  simplelru.find key (lru c) = None →
  mem.len val <= maxItemSizeBytes c →
  ensureFits_resets (S (S (length (lru c)))) (mem.len val) c ≠ O →
  ∃ c' cur,
    set now key val ttl (h, c) = Some (heap_after_add val h, c')
    ∧ lru c' = [(key, new_entry now val ttl h)]
    ∧ curSize c' = mem.len val
    ∧ accounted c'
    ∧ logger c'
      = LogResetting (maxItemSizeBytes c) (maxSizeBytes c) cur (mem.len val)
        :: logger c.
Proof.
  intros [L1 L2 L3] Hf Hok Hres. pose proof (len_nonneg val) as Hv0.
  destruct (ensureFits_loop_total (S (S (length (lru c)))) (mem.len val) c)
    as (c1 & dropped & Hloop & _ & _); try lia.
  destruct (ensureFits_loop_after_reset (S (S (length (lru c)))) (mem.len val)
              c c1 ltac:(lia) L3 Hres Hloop)
    as (Hl1 & Hc1 & (Hm & Hi & _) & cur & Hlog).
  exists (after_add now key val ttl h c1), cur.
  split; [by apply set_new_eq|].
  assert (curSize (after_add now key val ttl h c1) = mem.len val) as Hcur.
  { simpl. rewrite Hc1, Z.add_0_l, uint64_small; lia. }
  assert (lru (after_add now key val ttl h c1)
          = [(key, new_entry now val ttl h)]) as Hl.
  { simpl. by rewrite Hl1. }
  split_and!; try done.
  split; rewrite ?Hl, ?Hcur.
  - simpl. unfold entry_size. simpl. rewrite <-len_nlen. lia.
  - change (mem.len val <= maxSizeBytes c1). lia.
  - apply Forall_singleton. unfold entry_size. simpl. rewrite <-len_nlen.
    change (mem.len val <= maxItemSizeBytes c1). lia.
  - apply NoDup_singleton.
Qed.

Lemma reset_fallback_restores_accounting_witness :
  ∃ c' cur,
    set 1 "k" (mem.Slice 0 0 2) 10 (demo_heap, demo_drifted)
    = Some (heap_after_add (mem.Slice 0 0 2) demo_heap, c')
    ∧ lru c' = [("k", new_entry 1 (mem.Slice 0 0 2) 10 demo_heap)]
    ∧ curSize c' = 2
    ∧ accounted c'
    ∧ logger c' = LogResetting 3 4 cur 2 :: logger demo_drifted.
Proof.
  apply (reset_fallback_restores_accounting 1 "k" (mem.Slice 0 0 2) 10
           demo_heap demo_drifted).
  - split; by compute.
  - reflexivity.
  - by compute.
  - by compute.
Defined.

Lemma ensureFits_loop_spins fuel size c :
  0 <= size →
  curSize c = stored_bytes (lru c) →
  curSize c + size < uint64_modulus →
  maxSizeBytes c < size →
  ensureFits_loop fuel size c = None.
Proof.
  intros Hsize.
  revert c. induction fuel as [|fuel IH]; intros c Hsum Hcur Hbig;
    pose proof (stored_bytes_nonneg (lru c));
    [rewrite ensureFits_loop_O | rewrite ensureFits_loop_S];
    rewrite uint64_small by lia;
    destruct (Z.gtb_spec (curSize c + size) (maxSizeBytes c)); try lia;
    [done|].
  destruct (snoc_cases (lru c)) as [Hnil|(l & [k v] & Hl)].
  - rewrite (lru_RemoveOldest_nil _ Hnil).
    apply ensureFits_loop_stuck; [apply reset_lru | done |].
    destruct (reset_same_limits
      (log (LogResetting (maxItemSizeBytes c) (maxSizeBytes c) (curSize c) size) c))
      as (-> & _). simpl. rewrite Z.add_0_l, uint64_small; lia.
  - rewrite (lru_RemoveOldest_snoc _ _ _ _ Hl).
    assert (stored_bytes (lru c) = stored_bytes l + mem.len (data v)) as Hs.
    { rewrite Hl, stored_bytes_app. simpl. unfold entry_size. simpl. lia. }
    pose proof (stored_bytes_nonneg l). pose proof (len_nonneg (data v)).
    assert (curSize (onEvict k v (with_lru l c)) = stored_bytes l) as Hc'.
    { simpl. rewrite uint64_small; lia. }
    apply IH; rewrite ?Hc'; simpl; (done || lia).
Qed.

(** X9. The check of the constructor is what lets [ensureFits] stop. In a
    cache whose item limit is above its total limit, which
    [NewInMemoryCacheWithConfig] refuses to build, a [set] of a new key
    whose value passes the size check but is longer than the total limit
    never returns: the loop drops every entry, resets, and tests again for
    ever, whatever the fuel. *)
Theorem set_spins_when_item_limit_exceeds_total now key val ttl h c :
  curSize c = stored_bytes (lru c) →
  curSize c + mem.len val < uint64_modulus →
  simplelru.find key (lru c) = None →
  maxSizeBytes c < mem.len val <= maxItemSizeBytes c →
  (∀ fuel, ensureFits_loop fuel (mem.len val) c = None)
  ∧ set now key val ttl (h, c) = None
  ∧ (∀ name logger,
       NewInMemoryCacheWithConfig name logger
         {| MaxSize := maxSizeBytes c; MaxItemSize := maxItemSizeBytes c |}
       = None).
Proof.
  intros Hsum Hcur Hf [Hbig Hok].
  assert (∀ fuel, ensureFits_loop fuel (mem.len val) c = None) as Hspin.
  { intros fuel. apply ensureFits_loop_spins; try done. apply len_nonneg. }
  split; [done|]. split.
  - unfold set, simplelru.Get, ensureFits. rewrite Hf.
    destruct (Z.gtb_spec (mem.len val) (maxItemSizeBytes c)); [lia|].
    by rewrite Hspin.
  - intros name logger. unfold NewInMemoryCacheWithConfig. simpl.
    by destruct (Z.gtb_spec (maxItemSizeBytes c) (maxSizeBytes c)); [|lia].
Qed.

Lemma set_spins_when_item_limit_exceeds_total_witness :
  (∀ fuel, ensureFits_loop fuel 3 demo_misconfigured = None)
  ∧ set 1 "k" (mem.Slice 0 0 3) 10 (demo_heap, demo_misconfigured) = None
  ∧ (∀ name logger,
       NewInMemoryCacheWithConfig name logger
         {| MaxSize := 2; MaxItemSize := 3 |} = None).
Proof.
  apply (set_spins_when_item_limit_exceeds_total 1 "k" (mem.Slice 0 0 3) 10
           demo_heap demo_misconfigured).
  - reflexivity.
  - by compute.
  - reflexivity.
  - by compute.
Defined.

(** ** Further properties: [set] and [Store] *)

Lemma set_room_eq now key val ttl h c :
  simplelru.find key (lru c) = None →
  mem.len val <= maxItemSizeBytes c →
  0 <= curSize c →
  curSize c + mem.len val <= maxSizeBytes c →
  maxSizeBytes c < uint64_modulus →
  set now key val ttl (h, c)
  = Some (heap_after_add val h, after_add now key val ttl h c)
  ∧ lru (after_add now key val ttl h c)
    = (key, new_entry now val ttl h) :: lru c
  ∧ curSize (after_add now key val ttl h c) = curSize c + mem.len val
  ∧ same_limits c (after_add now key val ttl h c).
Proof.
  intros Hf Hok Hcur Hfit Hmax. pose proof (len_nonneg val).
  split_and!; try done.
  - apply set_new_eq; try done. apply ensureFits_loop_fits.
    rewrite uint64_small; lia.
  - change (simplelru.Add key (new_entry now val ttl h) (lru c)
            = (key, new_entry now val ttl h) :: lru c).
    unfold simplelru.Add. by rewrite (remove_absent _ _ Hf).
  - change (uint64 (curSize c + mem.len val) = curSize c + mem.len val).
    apply uint64_small. lia.
Qed.



(** X11. The time to live is a signed duration and [set] does not look at
    its sign. A value stored with a negative time to live is held and
    counted in [curSize] like any other; no [get] at the clock reading of
    the [set] or later returns it, and the first such [get] removes it,
    counting an expired hit and an eviction. *)
Theorem negative_ttl_is_stored_and_never_read now key val ttl h c now' :
  limits_ok c →
  simplelru.find key (lru c) = None →
  mem.len val <= maxItemSizeBytes c →
  ttl < 0 →
  now <= now' →
  ∃ h1 c1 c2,
    set now key val ttl (h, c) = Some (h1, c1)
    ∧ simplelru.find key (lru c1) = Some (new_entry now val ttl h)
    ∧ get now' key c1 = ((mem.nil, false), c2)
    ∧ simplelru.find key (lru c2) = None
    ∧ hitsExpired (metrics c2) = hitsExpired (metrics c1) + 1
    ∧ evicted (metrics c2) = evicted (metrics c1) + 1
    ∧ hits (metrics c2) = hits (metrics c1).
Proof.
  intros Hlim Hf Hok Httl Hnow.
  destruct (set_stores now key val ttl h c Hlim Hf Hok)
    as (c0 & dropped & c1 & _ & Hl0 & Hset & Hl & _).
  assert (simplelru.find key (lru c1) = Some (new_entry now val ttl h)) as Hf1.
  { rewrite Hl. simpl. by rewrite String.eqb_refl. }
  eexists _, c1, _. split; [exact Hset|]. split; [exact Hf1|].
  split; [apply (get_expired _ _ _ _ Hf1); simpl; unfold time_Add; lia|].
  simpl. rewrite Hl. simpl. rewrite String.eqb_refl. split_and!; try done.
  apply find_None_keys. apply find_None_keys in Hf.
  intros Hin. apply Hf. unfold simplelru.keys in *.
  rewrite Hl0, fmap_app. apply elem_of_app. by left.
Qed.

Lemma negative_ttl_is_stored_and_never_read_witness :
  ∃ h1 c1 c2,
    set 5 "k" (mem.Slice 0 0 2) (-1) (demo_heap, demo_cache) = Some (h1, c1)
    ∧ simplelru.find "k" (lru c1)
      = Some (new_entry 5 (mem.Slice 0 0 2) (-1) demo_heap)
    ∧ get 5 "k" c1 = ((mem.nil, false), c2)
    ∧ simplelru.find "k" (lru c2) = None
    ∧ hitsExpired (metrics c2) = hitsExpired (metrics c1) + 1
    ∧ evicted (metrics c2) = evicted (metrics c1) + 1
    ∧ hits (metrics c2) = hits (metrics c1).
Proof.
  apply (negative_ttl_is_stored_and_never_read 5 "k" (mem.Slice 0 0 2) (-1)
           demo_heap demo_cache 5).
  - split; by compute.
  - reflexivity.
  - by compute.
  - lia.
  - lia.
Defined.

Lemma Store_fresh_contents items ttl h c :
  NoDup (data_keys items ++ simplelru.keys (lru c)) →
  Forall (λ d, mem.len d.2.2 <= maxItemSizeBytes c) items →
  Forall (λ d, mem.valid h d.2.2) items →
  0 <= curSize c →
  curSize c + data_bytes items <= maxSizeBytes c →
  maxSizeBytes c < uint64_modulus →
  ∃ h' c',
    Store items ttl (h, c) = Some (h', c')
    ∧ (∀ s, mem.valid h s → mem.read h' s = mem.read h s ∧ mem.valid h' s)
    ∧ (∀ k e, simplelru.find k (lru c) = Some e →
              simplelru.find k (lru c') = Some e)
    ∧ (∀ now k v, (now, (k, v)) ∈ items →
         ∃ e, simplelru.find k (lru c') = Some e
              ∧ expiryTime e = now + ttl
              ∧ mem.read h' (data e) = mem.read h v).
Proof.
  revert h c. induction items as [|(now & key & val) items IH];
    intros h c Hnd Hall Hval Hcur Hfit Hmax.
  { exists h, c. split_and!; try done.
    intros ??? Hin. by apply elem_of_nil in Hin. }
  unfold data_keys in *. simpl in Hnd, Hfit.
  apply NoDup_cons in Hnd as (Hkey & Hnd).
  apply Forall_cons in Hall as (Hlen & Hall). simpl in Hlen.
  apply Forall_cons in Hval as (Hv & Hval). simpl in Hv.
  pose proof (len_nonneg val). pose proof (data_bytes_nonneg items).
  assert (simplelru.find key (lru c) = None) as Hf.
  { apply find_None_keys. intros Hin. apply Hkey, elem_of_app. by right. }
  destruct (set_room_eq now key val ttl h c)
    as (Hset & Hl1 & Hc1 & Hm1 & Hi1 & _); try done; try lia.
  set (c1 := after_add now key val ttl h c) in *. clearbody c1.
  destruct (read_make_copy h val Hv) as (Hread & Hvnew & _ & Hframe).
  fold (heap_after_add val h) in Hread, Hvnew, Hframe.
  destruct (IH (heap_after_add val h) c1)
    as (h2 & c2 & Hst & Hframe2 & Hold & Hnew).
  - unfold simplelru.keys. rewrite Hl1. simpl.
    apply NoDup_app in Hnd as (Hnd1 & Hdisj & Hnd2).
    apply NoDup_app. split; [done|]. split.
    + intros k Hin1 [->|Hin2]%elem_of_cons.
      * apply Hkey, elem_of_app. by left.
      * by apply (Hdisj k).
    + apply NoDup_cons. split; [|done].
      intros Hin. apply Hkey, elem_of_app. by right.
  - by rewrite Hi1.
  - eapply Forall_impl; [exact Hval|]. intros d Hd. by apply Hframe.
  - lia.
  - lia.
  - lia.
  - exists h2, c2. rewrite Store_cons, Hset. simpl. split; [exact Hst|].
    split_and!.
    + intros s Hs. destruct (Hframe s Hs) as (Hr1 & Hv1).
      destruct (Hframe2 s Hv1) as (Hr2 & Hv2). split; [congruence | done].
    + intros k e Hke. apply Hold. rewrite Hl1. simpl.
      destruct (String.eqb_spec key k) as [->|]; [congruence | done].
    + intros now' k v [[= -> -> ->]|Hin]%elem_of_cons.
      * exists (new_entry now val ttl h). split_and!.
        -- apply Hold. rewrite Hl1. simpl. by rewrite String.eqb_refl.
        -- done.
        -- change (data (new_entry now val ttl h))
             with (mem.Slice (length h) 0 (mem.nlen val)).
           destruct (Hframe2 _ Hvnew) as (-> & _). exact Hread.
      * destruct (Hnew now' k v Hin) as (e & He & Hexp & Hr).
        exists e. split_and!; try done.
        rewrite Hr. apply Hframe.
        by apply (proj1 (Forall_forall _ _) Hval (now', (k, v))).
Qed.

(** X12. What [Store] puts in, [Fetch] gives back. When the pairs have
    distinct keys that are not held yet, each value is within the item
    limit and all of them fit in the room that is left, [Store] keeps them
    all, and a [Fetch] returns, for each of these keys that it is asked for
    no later than [ttl] after the key was stored, a slice showing the bytes
    the caller's value showed. *)
Theorem Store_then_Fetch_round_trip items ttl reads h c :
  NoDup (data_keys items ++ simplelru.keys (lru c)) →
  Forall (λ d, mem.len d.2.2 <= maxItemSizeBytes c) items →
  Forall (λ d, mem.valid h d.2.2) items →
  0 <= curSize c →
  curSize c + data_bytes items <= maxSizeBytes c →
  maxSizeBytes c < uint64_modulus →
  ∃ h' c',
    Store items ttl (h, c) = Some (h', c')
    ∧ ∀ now k v,
        (now, (k, v)) ∈ items →
        k ∈ reads.*2 →
        (∀ now', (now', k) ∈ reads → now' <= now + ttl) →
        ∃ b, (Fetch reads c').1 !! k = Some b
             ∧ mem.read h' b = mem.read h v.
Proof.
  intros Hnd Hall Hval Hcur Hfit Hmax.
  destruct (Store_fresh_contents items ttl h c)
    as (h' & c' & Hst & _ & _ & Hnew); try done.
  exists h', c'. split; [done|].
  intros now k v Hin Hk Hnow.
  destruct (Hnew now k v Hin) as (e & Hf & Hexp & Hread).
  exists (data e). split; [|done].
  apply Fetch_loop_complete; auto.
  intros now' Hin'. rewrite Hexp. by apply Hnow.
Qed.

Lemma Store_then_Fetch_round_trip_witness :
  ∃ h' c',
    Store [(1, ("a", mem.Slice 0 0 2)); (3, ("b", mem.Slice 0 2 2))] 10
      (demo_heap, demo_cache) = Some (h', c')
    ∧ ∀ now k v,
        (now, (k, v)) ∈ [(1, ("a", mem.Slice 0 0 2)); (3, ("b", mem.Slice 0 2 2))] →
        k ∈ [(4, "b"); (5, "z"); (6, "a")].*2 →
        (∀ now', (now', k) ∈ [(4, "b"); (5, "z"); (6, "a")] → now' <= now + 10) →
        ∃ b, (Fetch [(4, "b"); (5, "z"); (6, "a")] c').1 !! k = Some b
             ∧ mem.read h' b = mem.read demo_heap v.
Proof.
  apply (Store_then_Fetch_round_trip
           [(1, ("a", mem.Slice 0 0 2)); (3, ("b", mem.Slice 0 2 2))] 10
           [(4, "b"); (5, "z"); (6, "a")] demo_heap demo_cache).
  - refine (bool_decide_unpack _ _). by vm_compute.
  - repeat constructor; by compute.
  - repeat constructor; simpl; lia.
  - by compute.
  - by compute.
  - by compute.
Defined.

Lemma ensureFits_loop_overflow fuel size c c' :
  ensureFits_loop fuel size c = Some c' →
  overflow (metrics c') = overflow (metrics c).
Proof.
  revert c. induction fuel as [|fuel IH]; intros c.
  - rewrite ensureFits_loop_O. destruct (_ >? _); [done|]. by intros [= <-].
  - rewrite ensureFits_loop_S. destruct (_ >? _); [|by intros [= <-]].
    destruct (lru_RemoveOldest c) as [c1 ok] eqn:Hrem.
    assert (overflow (metrics c1) = overflow (metrics c)) as H1.
    { unfold lru_RemoveOldest in Hrem.
      destruct (simplelru.RemoveOldest (lru c)) as [[[k v]|] l];
        by injection Hrem as <- <-. }
    destruct ok; intros Hloop; apply IH in Hloop; rewrite Hloop; [done|].
    destruct (reset_counters
      (log (LogResetting (maxItemSizeBytes c1) (maxSizeBytes c1)
              (curSize c1) size) c1)) as (_ & _ & _ & _ & _ & ->).
    done.
Qed.

Lemma set_within_limit_overflow now key val ttl h c h' c' :
  limits_ok c →
  mem.len val <= maxItemSizeBytes c →
  set now key val ttl (h, c) = Some (h', c') →
  overflow (metrics c') = overflow (metrics c) ∧ same_limits c c'.
Proof.
  intros Hlim Hok. destruct (simplelru.find key (lru c)) as [v|] eqn:Hf.
  { rewrite (set_present _ _ _ _ _ _ _ Hf). by intros [= <- <-]. }
  destruct (set_stores now key val ttl h c Hlim Hf Hok)
    as (c1 & dropped & c2 & Hloop & _ & _ & _ & _ & Hlim2).
  rewrite (set_new_eq now key val ttl h c c1 Hf Hok Hloop).
  intros [= <- <-]. split.
  - simpl. by apply ensureFits_loop_overflow in Hloop.
  - destruct Hlim as [L1 L2 L3]. pose proof (len_nonneg val).
    destruct (ensureFits_loop_total (S (S (length (lru c)))) (mem.len val) c)
      as (c1' & dropped' & Hloop' & _ & Hlim1); try lia.
    rewrite Hloop in Hloop'. by injection Hloop' as <-.
Qed.

(** [set] adds no key but its own. *)
Lemma set_other_key_absent now key val ttl h c h' c' k :
  limits_ok c →
  k ≠ key →
  simplelru.find k (lru c) = None →
  set now key val ttl (h, c) = Some (h', c') →
  simplelru.find k (lru c') = None.
Proof.
  intros Hlim Hne Hk. destruct (simplelru.find key (lru c)) as [v|] eqn:Hf.
  { rewrite (set_present _ _ _ _ _ _ _ Hf). intros [= <- <-]. simpl.
    destruct (String.eqb_spec key k); [congruence|].
    by rewrite find_remove_ne. }
  destruct (Z.lt_ge_cases (maxItemSizeBytes c) (mem.len val)) as [Hbig|Hok].
  { rewrite (set_too_big _ _ _ _ _ _ Hf Hbig). by intros [= <- <-]. }
  destruct (set_stores now key val ttl h c Hlim Hf Hok)
    as (c1 & dropped & c2 & _ & Hl & -> & Hl2 & _).
  intros [= <- <-]. rewrite Hl2. simpl.
  destruct (String.eqb_spec key k); [congruence|].
  apply find_None_keys. apply find_None_keys in Hk.
  intros Hin. apply Hk. unfold simplelru.keys in *.
  rewrite Hl, fmap_app. apply elem_of_app. by left.
Qed.

Lemma set_returns now key val ttl h c :
  limits_ok c →
  ∃ h' c', set now key val ttl (h, c) = Some (h', c') ∧ same_limits c c'.
Proof.
  intros Hlim. destruct (simplelru.find key (lru c)) as [v|] eqn:Hf.
  { rewrite (set_present _ _ _ _ _ _ _ Hf). by eexists _, _. }
  destruct (Z.lt_ge_cases (maxItemSizeBytes c) (mem.len val)) as [Hbig|Hok].
  { rewrite (set_too_big _ _ _ _ _ _ Hf Hbig). by eexists _, _. }
  destruct (set_stores now key val ttl h c Hlim Hf Hok)
    as (c1 & dropped & c2 & _ & _ & -> & _ & _ & Hlim2).
  by eexists _, _.
Qed.

Lemma Store_other_key_absent items ttl h c h' c' k :
  limits_ok c →
  k ∉ data_keys items →
  simplelru.find k (lru c) = None →
  Store items ttl (h, c) = Some (h', c') →
  simplelru.find k (lru c') = None.
Proof.
  revert h c. induction items as [|(now & key & val) items IH];
    intros h c Hlim Hk Hf.
  { by intros [= <- <-]. }
  unfold data_keys in Hk. simpl in Hk.
  apply not_elem_of_cons in Hk as (Hne & Hk).
  rewrite Store_cons.
  destruct (set_returns now key val ttl h c Hlim) as (h1 & c1 & Hset & Hlim1).
  rewrite Hset. simpl. apply IH; try done.
  - by eapply limits_ok_same.
  - by apply (set_other_key_absent now key val ttl h c h1 c1).
Qed.

Lemma Store_overflow_count lim items ttl h c :
  limits_ok c →
  maxItemSizeBytes c = lim →
  NoDup (data_keys items) →
  (∀ k, k ∈ data_keys items → simplelru.find k (lru c) = None) →
  ∃ h' c',
    Store items ttl (h, c) = Some (h', c')
    ∧ overflow (metrics c')
      = overflow (metrics c)
        + Z.of_nat (length (filter (λ d, lim < mem.len d.2.2) items))
    ∧ ∀ now k v, (now, (k, v)) ∈ items → lim < mem.len v →
                 simplelru.find k (lru c') = None.
Proof.
  revert h c. induction items as [|(now & key & val) items IH];
    intros h c Hlim Hi Hnd Habs.
  { exists h, c. split_and!; try done.
    - simpl. lia.
    - intros ??? Hin. by apply elem_of_nil in Hin. }
  unfold data_keys in *. simpl in Hnd, Habs.
  apply NoDup_cons in Hnd as (Hkey & Hnd).
  assert (simplelru.find key (lru c) = None) as Hf
    by apply Habs, list_elem_of_here.
  destruct (set_returns now key val ttl h c Hlim) as (h1 & c1 & Hset & Hlim1).
  assert (limits_ok c1) as Hok1 by (by eapply limits_ok_same).
  assert (maxItemSizeBytes c1 = lim) as Hi1.
  { destruct Hlim1 as (_ & -> & _). done. }
  destruct (IH h1 c1 Hok1 Hi1 Hnd) as (h2 & c2 & Hst & Hov & Hbig).
  { intros k Hk.
    apply (set_other_key_absent now key val ttl h c h1 c1); try done.
    - intros ->. done.
    - by apply Habs, list_elem_of_further. }
  exists h2, c2. rewrite Store_cons, Hset. simpl. split; [exact Hst|].
  destruct (decide (lim < mem.len val)) as [Hlt|Hge].
  - rewrite (set_too_big _ _ _ _ _ _ Hf) in Hset by lia.
    injection Hset as <- <-.
    rewrite filter_cons_True by done. simpl length. split.
    + rewrite Hov. simpl. lia.
    + intros now' k v [[= -> -> ->]|Hin]%elem_of_cons Hv.
      * by apply (Store_other_key_absent items ttl h
                    (inc_overflow (log (LogItemTooBig (maxItemSizeBytes c)
                       (maxSizeBytes c) (curSize c) (mem.len val)) c)) h2 c2).
      * by apply (Hbig now' k v).
  - rewrite filter_cons_False by done.
    destruct (set_within_limit_overflow now key val ttl h c h1 c1 Hlim
                ltac:(lia) Hset) as (Hov1 & _).
    split; [congruence|].
    intros now' k v [[= -> -> ->]|Hin]%elem_of_cons Hv; [lia|].
    by apply (Hbig now' k v).
Qed.

(** X13. [Store] applies what it can: given pairs with distinct keys that
    are not held yet, it returns, counts one overflow for each value that
    is longer than the item limit and for no other, and none of the keys of
    those values is held afterwards. *)
Theorem Store_rejects_oversized_values items ttl h c :
  limits_ok c →
  NoDup (data_keys items) →
  (∀ k, k ∈ data_keys items → simplelru.find k (lru c) = None) →
  ∃ h' c',
    Store items ttl (h, c) = Some (h', c')
    ∧ overflow (metrics c')
      = overflow (metrics c)
        + Z.of_nat (length (filter (λ d, maxItemSizeBytes c < mem.len d.2.2)
                              items))
    ∧ ∀ now k v, (now, (k, v)) ∈ items →
                 maxItemSizeBytes c < mem.len v →
                 simplelru.find k (lru c') = None.
Proof. intros Hlim Hnd Habs. by apply Store_overflow_count. Qed.

Lemma Store_rejects_oversized_values_witness :
  ∃ h' c',
    Store [(1, ("a", mem.Slice 0 0 2)); (2, ("big", mem.Slice 0 0 4));
           (3, ("b", mem.Slice 0 2 2))] 10 (demo_heap, demo_cache)
    = Some (h', c')
    ∧ overflow (metrics c')
      = overflow (metrics demo_cache)
        + Z.of_nat (length (filter (λ d, maxItemSizeBytes demo_cache
                                         < mem.len d.2.2)
                              [(1, ("a", mem.Slice 0 0 2));
                               (2, ("big", mem.Slice 0 0 4));
                               (3, ("b", mem.Slice 0 2 2))]))
    ∧ ∀ now k v,
        (now, (k, v)) ∈ [(1, ("a", mem.Slice 0 0 2));
                         (2, ("big", mem.Slice 0 0 4));
                         (3, ("b", mem.Slice 0 2 2))] →
        maxItemSizeBytes demo_cache < mem.len v →
        simplelru.find k (lru c') = None.
Proof.
  apply (Store_rejects_oversized_values
           [(1, ("a", mem.Slice 0 0 2)); (2, ("big", mem.Slice 0 0 4));
            (3, ("b", mem.Slice 0 2 2))] 10 demo_heap demo_cache).
  - split; by compute.
  - refine (bool_decide_unpack _ _). by vm_compute.
  - done.
Defined.

(** X14. A [get] that does not find its key, and a [get] that finds it
    before its expiry time, leave the contents alone: every key maps to
    the entry it mapped to before, the same entries are held, and
    [curSize], the gauges, the eviction counter and the log are unchanged.
    One request is counted, and one hit exactly when the key was found. *)
Theorem get_keeps_contents_unless_expired now key c :
  simplelru.find key (lru c) = None
  ∨ (∃ e, simplelru.find key (lru c) = Some e ∧ now <= expiryTime e) →
  ∃ b ok c',
    get now key c = ((b, ok), c')
    ∧ (ok = true ↔ is_Some (simplelru.find key (lru c)))
    ∧ (∀ k, simplelru.find k (lru c') = simplelru.find k (lru c))
    ∧ lru c' ≡ₚ lru c
    ∧ curSize c' = curSize c
    ∧ current (metrics c') = current (metrics c)
    ∧ currentSize (metrics c') = currentSize (metrics c)
    ∧ totalCurrentSize (metrics c') = totalCurrentSize (metrics c)
    ∧ evicted (metrics c') = evicted (metrics c)
    ∧ requests (metrics c') = requests (metrics c) + 1
    ∧ hits (metrics c') = hits (metrics c) + (if ok then 1 else 0)
    ∧ logger c' = logger c.
Proof.
  intros [Hf|(e & Hf & Hnow)].
  - rewrite (get_miss _ _ _ Hf). eexists _, _, _. split; [done|].
    simpl. rewrite Hf. split_and!; try done; try lia.
  - rewrite (get_hit _ _ _ _ Hf Hnow). eexists _, _, _. split; [done|].
    simpl. rewrite Hf. split_and!; try done.
    + intros k. destruct (String.eqb_spec key k) as [<-|Hne]; [done|].
      by apply find_remove_ne.
    + symmetry. by apply remove_perm.
Qed.

Lemma get_keeps_contents_unless_expired_witness :
  ∃ b ok c',
    get 5 "a" demo_full.2 = ((b, ok), c')
    ∧ (ok = true ↔ is_Some (simplelru.find "a" (lru demo_full.2)))
    ∧ (∀ k, simplelru.find k (lru c') = simplelru.find k (lru demo_full.2))
    ∧ lru c' ≡ₚ lru demo_full.2
    ∧ curSize c' = curSize demo_full.2
    ∧ current (metrics c') = current (metrics demo_full.2)
    ∧ currentSize (metrics c') = currentSize (metrics demo_full.2)
    ∧ totalCurrentSize (metrics c') = totalCurrentSize (metrics demo_full.2)
    ∧ evicted (metrics c') = evicted (metrics demo_full.2)
    ∧ requests (metrics c') = requests (metrics demo_full.2) + 1
    ∧ hits (metrics c') = hits (metrics demo_full.2) + (if ok then 1 else 0)
    ∧ logger c' = logger demo_full.2.
Proof.
  apply (get_keeps_contents_unless_expired 5 "a" demo_full.2).
  right. exists {| data := mem.Slice 1 0 2; expiryTime := 11 |}.
  split; [reflexivity | by compute].
Defined.

(** The default configuration is one the constructor accepts, with limits
    far below the range of [uint64]. *)
Lemma default_config_accepted name logger :
  is_Some (NewInMemoryCacheWithConfig name logger DefaultInMemoryCacheConfig)
  ∧ MaxSize DefaultInMemoryCacheConfig + MaxItemSize DefaultInMemoryCacheConfig
    < uint64_modulus.
Proof. split; [by eexists | by compute]. Qed.
